(** * Request-lifecycle tracing of claude-code-router

    A shallow embedding of [src/utils/requestLogger.ts] and
    [src/utils/httpInterceptor.ts], with the hooks of the server start-up
    file that arm and clear the correlation id, and the properties of the
    tracing layer proved (or refuted) on it.

    Layout: [JS] holds the fragment of the JavaScript platform the code
    relies on (values, truthiness, [typeof], [JSON.stringify], [JSON.parse],
    insertion-ordered objects and [Map]s); [RequestLogger] and
    [HTTPInterceptor] follow the two classes method by method; the theorems
    come last. *)

From Stdlib Require Import String Ascii List ZArith Bool Arith Lia.
From Stdlib Require Import Permutation Sorted DecimalString.
Import ListNotations.

Local Open Scope list_scope.
Local Open Scope string_scope.

(* ================================================================== *)
(** * The JavaScript fragment                                          *)
(* ================================================================== *)

Module JS.

(** A call either returns or throws (a completion record). *)
Inductive completion (A : Type) : Type :=
| Normal (a : A)
| Throw (e : string).
Arguments Normal {A} a.
Arguments Throw {A} e.

Definition bind {A B : Type} (c : completion A) (k : A -> completion B)
  : completion B :=
  match c with
  | Normal a => k a
  | Throw e => Throw e
  end.

Notation "x <- c ;; k" := (bind c (fun x => k))
  (at level 61, c at next level, right associativity).

(** Numbers.  A Number is held by the decimal expansion that
    [Number::toString] prints for it, the shortest one that reads back as
    the same double: an integer by its digits, any other finite number
    as [s * 10 ^ (n - k)], where [k] is the number of digits of [s].  The
    two zeros are one value here: they are falsy alike and print alike.
    Not every expansion is that of a double; what holds for all of them
    holds for those that are. *)
Inductive number : Type :=
| Integer (z : Z)
| Scientific (negative : bool) (s : positive) (n : Z)
| NaN
| Infinity (negative : bool).

Coercion Integer : Z >-> number.
Bind Scope Z_scope with number.

(** Values: the data the logger is handed, that is primitives, arrays
    and plain objects (what [JSON.parse] returns, and header maps).
    Strings are sequences of code units below 256; objects list their own
    enumerable properties in enumeration order. *)
#[local] Unset Elimination Schemes.
Inductive value : Type :=
| VUndefined
| VNull
| VBool (b : bool)
| VNum (n : number)
| VBigInt (n : Z)
| VStr (s : string)
| VArr (items : list value)
| VObj (props : list (string * value)).
#[local] Set Elimination Schemes.

Definition obj : Type := list (string * value).

(** Induction with the hypotheses for the nested lists. *)
Fixpoint value_ind' (P : value -> Prop)
  (Hu : P VUndefined) (Hn : P VNull)
  (Hb : forall b, P (VBool b)) (Hz : forall n, P (VNum n))
  (Hg : forall n, P (VBigInt n)) (Hs : forall s, P (VStr s))
  (Ha : forall items, Forall P items -> P (VArr items))
  (Ho : forall props, Forall (fun kv => P (snd kv)) props -> P (VObj props))
  (v : value) {struct v} : P v :=
  let rec := value_ind' P Hu Hn Hb Hz Hg Hs Ha Ho in
  match v with
  | VUndefined => Hu
  | VNull => Hn
  | VBool b => Hb b
  | VNum n => Hz n
  | VBigInt n => Hg n
  | VStr s => Hs s
  | VArr items =>
      Ha items
        ((fix go (l : list value) : Forall P l :=
            match l with
            | [] => Forall_nil _
            | x :: r => Forall_cons x (rec x) (go r)
            end) items)
  | VObj props =>
      Ho props
        ((fix go (l : list (string * value))
            : Forall (fun kv => P (snd kv)) l :=
            match l with
            | [] => Forall_nil _
            | kv :: r => Forall_cons kv (rec (snd kv)) (go r)
            end) props)
  end.

(** [!!v] *)
Definition truthy (v : value) : bool :=
  match v with
  | VUndefined | VNull => false
  | VBool b => b
  | VNum (Integer z) => negb (z =? 0)%Z
  | VNum NaN => false
  | VNum _ => true
  | VBigInt n => negb (n =? 0)%Z
  | VStr s => negb (s =? "")
  | VArr _ | VObj _ => true
  end.

(** [typeof v] *)
Definition typeof (v : value) : string :=
  match v with
  | VUndefined => "undefined"
  | VNull => "object"
  | VBool _ => "boolean"
  | VNum _ => "number"
  | VBigInt _ => "bigint"
  | VStr _ => "string"
  | VArr _ | VObj _ => "object"
  end.

(** ** Strings *)

Definition quote : ascii := "034"%char.
Definition backslash : ascii := "092"%char.
Definition newline : string := String "010"%char "".

(** [s.substring(0, n)] *)
Definition substring0 (n : nat) (s : string) : string := substring 0 n s.

(** [s.includes(d)] *)
Fixpoint includes (d s : string) : bool :=
  prefix d s ||
  match s with
  | "" => false
  | String _ r => includes d r
  end.

Definition lower (c : ascii) : ascii :=
  let n := nat_of_ascii c in
  if (65 <=? n)%nat && (n <=? 90)%nat then ascii_of_nat (n + 32) else c.

(** [s.toLowerCase()] on the code units of the model. *)
Fixpoint toLowerCase (s : string) : string :=
  match s with
  | "" => ""
  | String c r => String (lower c) (toLowerCase r)
  end.

(** ** Number::toString (radix 10) *)

Definition digits_of (p : positive) : string :=
  NilZero.string_of_uint (Pos.to_uint p).

Definition zeros (n : nat) : string :=
  string_of_list_ascii (repeat "0"%char n).

(** A digit string without its trailing zeros. *)
Fixpoint strip_zeros (digits : string) : string :=
  match digits with
  | "" => ""
  | String d rest =>
      match strip_zeros rest with
      | "" => if (d =? "0")%char then "" else String d ""
      | rest' => String d rest'
      end
  end.

(** The last steps of [Number::toString], on the digits of [s] (there
    are [k] of them) and the position [n] of the decimal point: plain
    digits for an integer of at most 21 digits, a decimal point inside or
    after [0.] down to [1e-6], the exponent form otherwise. *)
Definition scientific (digits : string) (n : Z) : string :=
  let k := Z.of_nat (String.length digits) in
  if ((k <=? n) && (n <=? 21))%Z
  then digits ++ zeros (Z.to_nat (n - k))
  else if ((0 <? n) && (n <=? 21))%Z
  then substring 0 (Z.to_nat n) digits ++ "."
       ++ substring (Z.to_nat n) (Z.to_nat (k - n)) digits
  else if ((-6 <? n) && (n <=? 0))%Z
  then "0." ++ zeros (Z.to_nat (- n)) ++ digits
  else
    let e := (n - 1)%Z in
    let exponent :=
      "e" ++ (if (e <? 0)%Z then "-" else "+")
      ++ NilZero.string_of_uint (N.to_uint (Z.abs_N e)) in
    match digits with
    | String d "" => String d exponent
    | String d rest => String d ("." ++ rest ++ exponent)
    | "" => exponent
    end.

Definition NumberToString (x : number) : string :=
  match x with
  | NaN => "NaN"
  | Infinity negative => if negative then "-Infinity" else "Infinity"
  | Integer Z0 => "0"
  | Integer (Zpos p) =>
      scientific (strip_zeros (digits_of p))
        (Z.of_nat (String.length (digits_of p)))
  | Integer (Zneg p) =>
      "-" ++ scientific (strip_zeros (digits_of p))
               (Z.of_nat (String.length (digits_of p)))
  | Scientific negative s n =>
      (if negative then "-" else "") ++ scientific (digits_of s) n
  end.

(** [isFinite(x)] *)
Definition isFinite (x : number) : bool :=
  match x with
  | NaN | Infinity _ => false
  | _ => true
  end.

(** ** Objects: own properties in enumeration order *)

Fixpoint get (k : string) (o : obj) : value :=
  match o with
  | [] => VUndefined
  | (k', v) :: r => if k' =? k then v else get k r
  end.

Fixpoint has (k : string) (o : obj) : bool :=
  match o with
  | [] => false
  | (k', _) :: r => (k' =? k) || has k r
  end.

(** [o[k] = v]: an existing property keeps its place. *)
Definition set (k : string) (v : value) (o : obj) : obj :=
  if has k o
  then map (fun kv => if fst kv =? k then (fst kv, v) else kv) o
  else (o ++ [(k, v)])%list.

Fixpoint indexed {A : Type} (f : A -> value) (i : nat) (l : list A) : obj :=
  match l with
  | [] => []
  | x :: r => (NilZero.string_of_uint (Nat.to_uint i), f x) :: indexed f (S i) r
  end.

(** [{ ...v }]: the own enumerable properties of [v]; none for
    [undefined], [null], booleans and numbers. *)
Definition spread (v : value) : obj :=
  match v with
  | VObj props => props
  | VArr items => indexed (fun x => x) 0 items
  | VStr s => indexed (fun c => VStr (String c "")) 0 (list_ascii_of_string s)
  | _ => []
  end.

(** ** JSON.stringify *)

Definition hexdigit (n : nat) : ascii :=
  ascii_of_nat (if (n <? 10)%nat then 48 + n else 87 + n).

(** One code unit inside [QuoteJSONString]. *)
Definition quoteChar (c : ascii) : string :=
  let n := nat_of_ascii c in
  if (n =? 8)%nat then String backslash "b"
  else if (n =? 9)%nat then String backslash "t"
  else if (n =? 10)%nat then String backslash "n"
  else if (n =? 12)%nat then String backslash "f"
  else if (n =? 13)%nat then String backslash "r"
  else if (n =? 34)%nat then String backslash (String quote "")
  else if (n =? 92)%nat then String backslash (String backslash "")
  else if (n <? 32)%nat
       then String backslash
              ("u00" ++ String (hexdigit (n / 16))
                          (String (hexdigit (n mod 16)) ""))
  else String c "".

Fixpoint quoteChars (s : string) : string :=
  match s with
  | "" => ""
  | String c r => quoteChar c ++ quoteChars r
  end.

Definition QuoteJSONString (s : string) : string :=
  String quote (quoteChars s ++ String quote "").

(** The closing steps of [SerializeJSONObject] and [SerializeJSONArray]. *)
Definition wrap (opening closing gap stepback indent : string)
  (partial : list string) : string :=
  match partial with
  | [] => opening ++ closing
  | _ =>
      if gap =? ""
      then opening ++ String.concat "," partial ++ closing
      else opening ++ newline ++ indent
           ++ String.concat ("," ++ newline ++ indent) partial
           ++ newline ++ stepback ++ closing
  end.

Fixpoint sequence {A : Type} (l : list (completion A)) : completion (list A) :=
  match l with
  | [] => Normal []
  | c :: r => x <- c ;; xs <- sequence r ;; Normal (x :: xs)
  end.

Definition member (gap : string) (kp : string * option string)
  : list string :=
  match snd kp with
  | None => []
  | Some strP =>
      [QuoteJSONString (fst kp) ++ ":"
       ++ (if gap =? "" then "" else " ") ++ strP]
  end.

Definition element (p : option string) : string :=
  match p with
  | Some s => s
  | None => "null"
  end.

(** [SerializeJSONProperty]: [Normal None] is the [undefined] result; a
    number that is not finite gives [null]; a BigInt throws a
    TypeError. *)
Fixpoint SerializeJSONProperty (gap indent : string) (v : value)
  : completion (option string) :=
  match v with
  | VUndefined => Normal None
  | VNull => Normal (Some "null")
  | VBool b => Normal (Some (if b then "true" else "false"))
  | VNum n => Normal (Some (if isFinite n then NumberToString n else "null"))
  | VBigInt _ => Throw "TypeError: Do not know how to serialize a BigInt"
  | VStr s => Normal (Some (QuoteJSONString s))
  | VArr items =>
      parts <- sequence
                 (map (SerializeJSONProperty gap (indent ++ gap)) items) ;;
      Normal (Some (wrap "[" "]" gap indent (indent ++ gap)
                      (map element parts)))
  | VObj props =>
      parts <- sequence
                 (map (fun kv =>
                         match kv with
                         | (k, x) =>
                             p <- SerializeJSONProperty gap (indent ++ gap) x ;;
                             Normal (k, p)
                         end) props) ;;
      Normal (Some (wrap "{" "}" gap indent (indent ++ gap)
                      (flat_map (member gap) parts)))
  end.

(** [JSON.stringify(v)] *)
Definition JSON_stringify (v : value) : completion (option string) :=
  SerializeJSONProperty "" "" v.

(** [JSON.stringify(v, null, 2)] *)
Definition JSON_stringify_2 (v : value) : completion (option string) :=
  SerializeJSONProperty "  " "" v.

(** ** JSON.parse

    The code calls the platform's [JSON.parse]; the interceptor below
    takes it as a parameter, and so does every general statement.
    [parse_json] is a reference used to run the examples only.  It throws
    on every text that is not JSON.  On a JSON text it returns what
    [JSON.parse] returns when the numbers are integer literals of at most
    15 digits, the [\u] escapes stay below 256 and no object key reads as
    an array index (such keys enumerate first in JavaScript, in numeric
    order).  It is not meant for other JSON texts: it throws on a
    fraction or an exponent, which [JSON.parse] accepts. *)

Definition is_ws (c : ascii) : bool :=
  let n := nat_of_ascii c in
  (n =? 32)%nat || (n =? 9)%nat || (n =? 10)%nat || (n =? 13)%nat.

Fixpoint skip_ws (s : string) : string :=
  match s with
  | String c r => if is_ws c then skip_ws r else s
  | "" => ""
  end.

Definition digit_of (c : ascii) : option Z :=
  let n := nat_of_ascii c in
  if (48 <=? n)%nat && (n <=? 57)%nat then Some (Z.of_nat (n - 48)) else None.

Definition hex_of (c : ascii) : option nat :=
  let n := nat_of_ascii c in
  if (48 <=? n)%nat && (n <=? 57)%nat then Some (n - 48)%nat
  else if (97 <=? n)%nat && (n <=? 102)%nat then Some (n - 87)%nat
  else if (65 <=? n)%nat && (n <=? 70)%nat then Some (n - 55)%nat
  else None.

Fixpoint parse_digits (acc : Z) (s : string) : Z * string :=
  match s with
  | String c r =>
      match digit_of c with
      | Some d => parse_digits (10 * acc + d) r
      | None => (acc, s)
      end
  | "" => (acc, s)
  end.

(** An integer literal: no leading zero, no fraction, no exponent. *)
Definition parse_int (s : string) : option (Z * string) :=
  match s with
  | String c r =>
      match digit_of c with
      | Some d =>
          let '(n, rest) := if (d =? 0)%Z then (0%Z, r) else parse_digits d r in
          match rest with
          | String c' _ =>
              match digit_of c' with
              | Some _ => None
              | None =>
                  let k := nat_of_ascii c' in
                  if (k =? 46)%nat || (k =? 101)%nat || (k =? 69)%nat
                  then None else Some (n, rest)
              end
          | "" => Some (n, rest)
          end
      | None => None
      end
  | "" => None
  end.

Definition unescape (c : ascii) : option ascii :=
  let n := nat_of_ascii c in
  if (n =? 34)%nat || (n =? 92)%nat || (n =? 47)%nat then Some c
  else if (n =? 98)%nat then Some (ascii_of_nat 8)
  else if (n =? 102)%nat then Some (ascii_of_nat 12)
  else if (n =? 110)%nat then Some (ascii_of_nat 10)
  else if (n =? 114)%nat then Some (ascii_of_nat 13)
  else if (n =? 116)%nat then Some (ascii_of_nat 9)
  else None.

Definition cons_char (c : ascii) (p : option (string * string))
  : option (string * string) :=
  match p with
  | Some (t, rest) => Some (String c t, rest)
  | None => None
  end.

(** The characters of a string literal, after its opening quote. *)
Fixpoint parse_chars (s : string) : option (string * string) :=
  match s with
  | "" => None
  | String c r =>
      if (nat_of_ascii c =? 34)%nat then Some ("", r)
      else if (nat_of_ascii c =? 92)%nat then
        match r with
        | String e r1 =>
            match unescape e with
            | Some c' => cons_char c' (parse_chars r1)
            | None =>
                match r1 with
                | String h1 (String h2 (String h3 (String h4 r2))) =>
                    match hex_of h1, hex_of h2, hex_of h3, hex_of h4 with
                    | Some 0%nat, Some 0%nat, Some a, Some b =>
                        if (nat_of_ascii e =? 117)%nat
                        then cons_char (ascii_of_nat (16 * a + b))
                               (parse_chars r2)
                        else None
                    | _, _, _, _ => None
                    end
                | _ => None
                end
            end
        | "" => None
        end
      else if (nat_of_ascii c <? 32)%nat then None
      else cons_char c (parse_chars r)
  end.

Definition expect (word : string) (v : value) (s : string)
  : option (value * string) :=
  if prefix word s
  then Some (v, substring (String.length word) (String.length s) s)
  else None.

Fixpoint parse_value (fuel : nat) (s : string) : option (value * string) :=
  match fuel with
  | O => None
  | S fuel' =>
      match skip_ws s with
      | "" => None
      | String c r =>
          let n := nat_of_ascii c in
          if (n =? 110)%nat then expect "ull" VNull r
          else if (n =? 116)%nat then expect "rue" (VBool true) r
          else if (n =? 102)%nat then expect "alse" (VBool false) r
          else if (n =? 34)%nat then
            match parse_chars r with
            | Some (t, rest) => Some (VStr t, rest)
            | None => None
            end
          else if (n =? 45)%nat then
            match parse_int r with
            | Some (k, rest) => Some (VNum (- k), rest)
            | None => None
            end
          else if (n =? 91)%nat then
            match skip_ws r with
            | String "]"%char rest => Some (VArr [], rest)
            | _ =>
                match
                  (fix elements (k : nat) (s : string)
                     : option (list value * string) :=
                     match k with
                     | O => None
                     | S k' =>
                         match parse_value fuel' s with
                         | Some (v, r1) =>
                             match skip_ws r1 with
                             | String ","%char r2 =>
                                 match elements k' r2 with
                                 | Some (vs, r3) => Some (v :: vs, r3)
                                 | None => None
                                 end
                             | String "]"%char r2 => Some ([v], r2)
                             | _ => None
                             end
                         | None => None
                         end
                     end) fuel' r
                with
                | Some (vs, rest) => Some (VArr vs, rest)
                | None => None
                end
            end
          else if (n =? 123)%nat then
            match skip_ws r with
            | String "}"%char rest => Some (VObj [], rest)
            | _ =>
                match
                  (fix members (k : nat) (acc : obj) (s : string)
                     : option (obj * string) :=
                     match k with
                     | O => None
                     | S k' =>
                         match skip_ws s with
                         | String "034"%char r0 =>
                             match parse_chars r0 with
                             | Some (key, r1) =>
                                 match skip_ws r1 with
                                 | String ":"%char r2 =>
                                     match parse_value fuel' r2 with
                                     | Some (v, r3) =>
                                         let acc := set key v acc in
                                         match skip_ws r3 with
                                         | String ","%char r4 =>
                                             members k' acc r4
                                         | String "}"%char r4 => Some (acc, r4)
                                         | _ => None
                                         end
                                     | None => None
                                     end
                                 | _ => None
                                 end
                             | None => None
                             end
                         | _ => None
                         end
                     end) fuel' [] r
                with
                | Some (o, rest) => Some (VObj o, rest)
                | None => None
                end
            end
          else
            match parse_int (String c r) with
            | Some (k, rest) => Some (VNum k, rest)
            | None => None
            end
      end
  end.

Definition parse_json (text : string) : completion value :=
  match parse_value (S (String.length text)) text with
  | Some (v, rest) =>
      match skip_ws rest with
      | "" => Normal v
      | _ => Throw "SyntaxError: Unexpected non-whitespace character"
      end
  | None => Throw "SyntaxError: Unexpected token"
  end.

End JS.

(* ================================================================== *)
(** * src/utils/requestLogger.ts                                       *)
(* ================================================================== *)

Module RequestLogger.
Import JS.

(** ** [Map<string, V>]: bindings in insertion order, one per key *)

Section MapModel.
Context {V : Type}.

Definition Map : Type := list (string * V).

Fixpoint Map_get (k : string) (m : Map) : option V :=
  match m with
  | [] => None
  | (k', v) :: r => if k' =? k then Some v else Map_get k r
  end.

(** A present key keeps its position and takes the new value; a new
    key goes last. *)
Fixpoint Map_set (k : string) (v : V) (m : Map) : Map :=
  match m with
  | [] => [(k, v)]
  | (k', v') :: r =>
      if k' =? k then (k', v) :: r else (k', v') :: Map_set k v r
  end.

Fixpoint Map_delete (k : string) (m : Map) : Map :=
  match m with
  | [] => []
  | (k', v') :: r =>
      if k' =? k then r else (k', v') :: Map_delete k r
  end.

Definition Map_size (m : Map) : nat := List.length m.

(** [toDelete.forEach(([id]) => m.delete(id))] *)
Definition delete_all (toDelete : list (string * V)) (m : Map) : Map :=
  fold_left (fun m kv => Map_delete (fst kv) m) toDelete m.

(** The representation invariant: no key is bound twice. *)
Definition Map_ok (m : Map) : Prop := NoDup (map fst m).
End MapModel.
Arguments Map V : clear implicits.

(** ** [Array.prototype.sort(compareFn)]: a stable sort

    [compareFn a b] is [Gt] when the comparator returns a positive number.
    Elements that compare equal keep their order. *)
Section Sort.
Context {A : Type} (compareFn : A -> A -> comparison).

Fixpoint insert (x : A) (l : list A) : list A :=
  match l with
  | [] => [x]
  | y :: r =>
      match compareFn x y with
      | Gt => y :: insert x r
      | _ => x :: y :: r
      end
  end.

Fixpoint sort (l : list A) : list A :=
  match l with
  | [] => []
  | x :: r => insert x (sort r)
  end.
End Sort.

(** [a.localeCompare(b)] on the outputs of [Date.prototype.toISOString]:
    these have digits at the same positions and the same punctuation, so
    the collation order is the order of the code units. *)
Definition localeCompare (a b : string) : comparison := String.compare a b.

(** ** The ambient inputs of one call *)
Record Env : Type := {
  Date_now : Z;                   (* Date.now() *)
  Date_toISOString : string;      (* new Date().toISOString() *)
  REQUEST_LOG : option string;    (* process.env.REQUEST_LOG *)
  appendFileSync_ok : bool        (* whether fs.appendFileSync succeeds *)
}.

(** [process.env.REQUEST_LOG === "false"] *)
Definition logging_disabled (env : Env) : bool :=
  match REQUEST_LOG env with
  | Some s => s =? "false"
  | None => false
  end.

(** ** [RequestLogEntry] *)
Record OriginalRequest : Type := {
  or_headers : value;
  or_body : value
}.

Record Routing : Type := {
  tokenCount : Z;
  selectedModel : string;
  routingReason : string
}.

Record TransformedRequest : Type := {
  tr_url : string;
  tr_method : string;
  tr_headers : value;
  tr_body : value;
  tr_provider : string
}.

(** The shape shared by [providerResponse] and [response]. *)
Record StageResponse : Type := {
  status : Z;
  sr_headers : value;
  sr_body : value;
  duration : Z
}.

Record ErrorInfo : Type := {
  message : value;
  stack : value
}.

Record RequestLogEntry : Type := {
  id : string;
  timestamp : string;
  method : string;
  url : string;
  originalRequest : OriginalRequest;
  routing : Routing;
  transformedRequest : option TransformedRequest;
  providerResponse : option StageResponse;
  response : option StageResponse;
  error : option ErrorInfo
}.

(** The inbound request as [logRequest] reads it. *)
Record IncomingRequest : Type := {
  req_method : string;
  req_url : string;
  req_headers : value;
  req_body : value
}.

(** ** The logger: its fields, the log file and the console

    [file] has one element per appended line: the record whose
    serialization the line holds. *)
Record Logger : Type := {
  logs : Map RequestLogEntry;
  maxLogs : nat;
  file : list RequestLogEntry;
  console : list string
}.

(** [new RequestLogger()] with an empty log file. *)
Definition requestLogger : Logger :=
  {| logs := []; maxLogs := 1000; file := []; console := [] |}.

Definition with_logs (l : Logger) (m : Map RequestLogEntry) : Logger :=
  {| logs := m; maxLogs := maxLogs l; file := file l; console := console l |}.

Definition REDACTED : value := VStr "[REDACTED]".
Definition TRUNCATED : string := "... [TRUNCATED]".
Definition UNPARSEABLE : value := VStr "[UNPARSEABLE OBJECT]".
Definition threshold : nat := 1000.

(** ** sanitizeHeaders *)
Definition sanitizeHeaders (headers : value) : value :=
  let sanitized := spread headers in
  let sanitized :=
    if truthy (get "authorization" sanitized)
    then set "authorization" REDACTED sanitized
    else sanitized in
  let sanitized :=
    if truthy (get "x-api-key" sanitized)
    then set "x-api-key" REDACTED sanitized
    else sanitized in
  VObj sanitized.

(** ** sanitizeBody

    Inside the [try], [str.length] on an [undefined] result throws as
    well, and every throw yields the unparseable marker. *)
Definition sanitizeBody (body : value) : value :=
  if negb (truthy body) then body
  else
    match body with
    | VStr s =>
        if (threshold <? String.length s)%nat
        then VStr (substring0 threshold s ++ TRUNCATED)
        else body
    | VArr _ | VObj _ =>
        match JSON_stringify body with
        | Normal (Some str) =>
            if (threshold <? String.length str)%nat
            then
              match JSON_stringify_2 body with
              | Normal (Some pretty) =>
                  VStr (substring0 threshold pretty ++ TRUNCATED)
              | _ => UNPARSEABLE
              end
            else body
        | _ => UNPARSEABLE
        end
    | _ => body
    end.

(** ** writeToFile

    [JSON.stringify(entry)] sees the fields below; the optional stages are
    own properties only once assigned.  Whether it throws does not depend
    on the order of the properties. *)
Definition stage_value (r : StageResponse) : value :=
  VObj [("status", VNum (status r)); ("headers", sr_headers r);
        ("body", sr_body r); ("duration", VNum (duration r))].

Definition optional {A : Type} (k : string) (f : A -> value) (o : option A)
  : obj :=
  match o with
  | Some a => [(k, f a)]
  | None => []
  end.

Definition entry_value (e : RequestLogEntry) : value :=
  VObj
    ([("id", VStr (id e)); ("timestamp", VStr (timestamp e));
      ("method", VStr (method e)); ("url", VStr (url e));
      ("originalRequest",
        VObj [("headers", or_headers (originalRequest e));
              ("body", or_body (originalRequest e))]);
      ("routing",
        VObj [("tokenCount", VNum (tokenCount (routing e)));
              ("selectedModel", VStr (selectedModel (routing e)));
              ("routingReason", VStr (routingReason (routing e)))])]
     ++ optional "transformedRequest"
          (fun t => VObj [("url", VStr (tr_url t));
                          ("method", VStr (tr_method t));
                          ("headers", tr_headers t); ("body", tr_body t);
                          ("provider", VStr (tr_provider t))])
          (transformedRequest e)
     ++ optional "providerResponse" stage_value (providerResponse e)
     ++ optional "response" stage_value (response e)
     ++ optional "error"
          (fun x => VObj [("message", message x); ("stack", stack x)])
          (error e))%list.

Definition console_error (msg : string) (l : Logger) : Logger :=
  {| logs := logs l; maxLogs := maxLogs l; file := file l;
     console := (console l ++ [msg])%list |}.

Definition appendFileSync (env : Env) (entry : RequestLogEntry) (l : Logger)
  : completion Logger :=
  if appendFileSync_ok env
  then Normal {| logs := logs l; maxLogs := maxLogs l;
                 file := (file l ++ [entry])%list; console := console l |}
  else Throw "Error: appendFileSync".

Definition writeToFile (env : Env) (entry : RequestLogEntry) (l : Logger)
  : Logger :=
  match
    (_ <- JSON_stringify (entry_value entry) ;; appendFileSync env entry l)
  with
  | Normal l' => l'
  | Throw _ => console_error "Failed to write request log:" l
  end.

(** ** cleanup *)
Definition by_timestamp (a b : string * RequestLogEntry) : comparison :=
  localeCompare (timestamp (snd a)) (timestamp (snd b)).

Definition cleanup (l : Logger) : Logger :=
  if (maxLogs l <? Map_size (logs l))%nat
  then
    let entries := sort by_timestamp (logs l) in
    let toDelete := firstn (List.length entries - maxLogs l) entries in
    with_logs l (delete_all toDelete (logs l))
  else l.

(** ** The logging methods *)
(** The [entry] literal of [logRequest]. *)
Definition new_entry (env : Env) (id : string) (req : IncomingRequest)
  : RequestLogEntry :=
  {| id := id;
     timestamp := Date_toISOString env;
     method := req_method req;
     url := req_url req;
     originalRequest :=
       {| or_headers := sanitizeHeaders (req_headers req);
          or_body := sanitizeBody (req_body req) |};
     routing :=
       {| tokenCount := 0; selectedModel := ""; routingReason := "" |};
     transformedRequest := None;
     providerResponse := None;
     response := None;
     error := None |}.

Definition logRequest (env : Env) (id : string) (req : IncomingRequest)
  (l : Logger) : Logger :=
  if logging_disabled env then l
  else
    let entry := new_entry env id req in
    cleanup (with_logs l (Map_set id entry (logs l))).

Definition set_routing (r : Routing) (e : RequestLogEntry) : RequestLogEntry :=
  {| id := id e; timestamp := timestamp e; method := method e; url := url e;
     originalRequest := originalRequest e; routing := r;
     transformedRequest := transformedRequest e;
     providerResponse := providerResponse e;
     response := response e; error := error e |}.

Definition set_transformedRequest (t : TransformedRequest) (e : RequestLogEntry)
  : RequestLogEntry :=
  {| id := id e; timestamp := timestamp e; method := method e; url := url e;
     originalRequest := originalRequest e; routing := routing e;
     transformedRequest := Some t;
     providerResponse := providerResponse e;
     response := response e; error := error e |}.

Definition set_providerResponse (r : StageResponse) (e : RequestLogEntry)
  : RequestLogEntry :=
  {| id := id e; timestamp := timestamp e; method := method e; url := url e;
     originalRequest := originalRequest e; routing := routing e;
     transformedRequest := transformedRequest e;
     providerResponse := Some r;
     response := response e; error := error e |}.

Definition set_response (r : StageResponse) (e : RequestLogEntry)
  : RequestLogEntry :=
  {| id := id e; timestamp := timestamp e; method := method e; url := url e;
     originalRequest := originalRequest e; routing := routing e;
     transformedRequest := transformedRequest e;
     providerResponse := providerResponse e;
     response := Some r; error := error e |}.

Definition set_error (x : ErrorInfo) (e : RequestLogEntry) : RequestLogEntry :=
  {| id := id e; timestamp := timestamp e; method := method e; url := url e;
     originalRequest := originalRequest e; routing := routing e;
     transformedRequest := transformedRequest e;
     providerResponse := providerResponse e;
     response := response e; error := Some x |}.

(** The record found by [this.logs.get(id)] is updated in place. *)
Definition update (id : string) (entry : RequestLogEntry) (l : Logger)
  : Logger :=
  with_logs l (Map_set id entry (logs l)).

Definition logRouting (env : Env) (id : string) (tokenCount : Z)
  (selectedModel reason : string) (l : Logger) : Logger :=
  if logging_disabled env then l
  else
    match Map_get id (logs l) with
    | Some entry =>
        update id
          (set_routing {| tokenCount := tokenCount;
                          selectedModel := selectedModel;
                          routingReason := reason |} entry) l
    | None => l
    end.

Definition logTransformedRequest (env : Env) (id url method : string)
  (headers body : value) (provider : string) (l : Logger) : Logger :=
  if logging_disabled env then l
  else
    match Map_get id (logs l) with
    | Some entry =>
        update id
          (set_transformedRequest
             {| tr_url := url; tr_method := method;
                tr_headers := sanitizeHeaders headers;
                tr_body := sanitizeBody body;
                tr_provider := provider |} entry) l
    | None => l
    end.

Definition logProviderResponse (env : Env) (id : string) (status : Z)
  (headers body : value) (startTime : Z) (l : Logger) : Logger :=
  if logging_disabled env then l
  else
    match Map_get id (logs l) with
    | Some entry =>
        update id
          (set_providerResponse
             {| status := status;
                sr_headers := sanitizeHeaders headers;
                sr_body := sanitizeBody body;
                duration := Date_now env - startTime |} entry) l
    | None => l
    end.

Definition logResponse (env : Env) (id : string) (status : Z)
  (headers body : value) (startTime : Z) (l : Logger) : Logger :=
  match Map_get id (logs l) with
  | Some entry =>
      let entry :=
        set_response
          {| status := status;
             sr_headers := sanitizeHeaders headers;
             sr_body := sanitizeBody body;
             duration := Date_now env - startTime |} entry in
      writeToFile env entry (update id entry l)
  | None => l
  end.

(** [v.message], [v.stack]: reading a property of [undefined] or [null]
    throws; values other than objects have neither property. *)
Definition GetV (v : value) (k : string) : completion value :=
  match v with
  | VUndefined | VNull => Throw "TypeError: Cannot read properties"
  | VObj props => Normal (get k props)
  | _ => Normal VUndefined
  end.

Definition logError (env : Env) (id : string) (error : value) (l : Logger)
  : completion Logger :=
  match Map_get id (logs l) with
  | Some entry =>
      m <- GetV error "message" ;;
      s <- GetV error "stack" ;;
      let entry := set_error {| message := m; stack := s |} entry in
      Normal (writeToFile env entry (update id entry l))
  | None => Normal l
  end.

(** [array.slice(0, limit)]: a negative [limit] counts from the end. *)
Definition slice0 {A : Type} (limit : Z) (l : list A) : list A :=
  if (limit <? 0)%Z
  then firstn (List.length l - Z.to_nat (- limit)) l
  else firstn (Z.to_nat limit) l.

Definition getRecentLogs (limit : Z) (l : Logger) : list RequestLogEntry :=
  slice0 limit
    (sort (fun a b => localeCompare (timestamp b) (timestamp a))
       (map snd (logs l))).

Definition getLogById (id : string) (l : Logger) : option RequestLogEntry :=
  Map_get id (logs l).

End RequestLogger.

(* ================================================================== *)
(** * src/utils/httpInterceptor.ts                                     *)
(* ================================================================== *)

Module HTTPInterceptor.
Import JS RequestLogger.

Record InterceptedRequest : Type := {
  requestId : option string;
  startTime : Z;
  ir_url : string;
  ir_method : string;
  ir_headers : value;
  ir_body : option string;
  provider : string
}.

(** The one property of the [global] object the interceptor uses. *)
Record Global : Type := {
  currentRequestId : option string
}.

Definition getCurrentRequestId (g : Global) : option string :=
  currentRequestId g.

Definition setCurrentRequestId (id : string) (g : Global) : Global :=
  {| currentRequestId := Some id |}.

Definition clearCurrentRequestId (g : Global) : Global :=
  {| currentRequestId := None |}.

(** The options object handed to [http.request] (the fields read). *)
Record RequestOptions : Type := {
  opt_hostname : option string;
  opt_host : option string;
  opt_port : option string;
  opt_path : option string;
  opt_method : option string;
  opt_headers : value
}.

(** [a || b] on optional strings: the empty string is falsy too. *)
Definition or_else (a : option string) (b : string) : string :=
  match a with
  | Some s => if s =? "" then b else s
  | None => b
  end.

Definition parseUrl (options : string + RequestOptions) (isHttps : bool)
  : string :=
  match options with
  | inl url => url
  | inr o =>
      let protocol := if isHttps then "https:" else "http:" in
      let hostname :=
        or_else (opt_hostname o) (or_else (opt_host o) "localhost") in
      let port :=
        match opt_port o with
        | Some p => if p =? "" then "" else ":" ++ p
        | None => ""
        end in
      let path := or_else (opt_path o) "/" in
      protocol ++ "//" ++ hostname ++ port ++ path
  end.

Definition providerDomains : list string :=
  ["api.openai.com"; "openrouter.ai"; "api.deepseek.com";
   "generativelanguage.googleapis.com"; "api.anthropic.com"; "httpbin.org"].

(** [new URL(url).hostname] is a parameter of the interceptor below and
    of every general statement.  [hostname_of] is a reference used to run
    the examples only, on URLs of the shape [parseUrl] builds
    ([scheme://host], then a port or a path): the text between [//] and
    the next [/], [:], [?] or [#], in lower case.  It is not meant for
    other URLs (user info, a backslash, no scheme, an empty authority),
    where the platform reads the host name differently. *)
Fixpoint upto_delimiter (s : string) : string :=
  match s with
  | "" => ""
  | String c r =>
      let n := nat_of_ascii c in
      if (n =? 47)%nat || (n =? 58)%nat || (n =? 63)%nat || (n =? 35)%nat
      then "" else String (lower c) (upto_delimiter r)
  end.

Definition hostname_of (url : string) : completion string :=
  match index 0 "//" url with
  | Some i =>
      match upto_delimiter (substring (i + 2) (String.length url) url) with
      | "" => Throw "TypeError: Invalid URL"
      | h => Normal h
      end
  | None => Throw "TypeError: Invalid URL"
  end.

Section Platform.
(** [new URL(url).hostname] and [JSON.parse(text)], properties of the
    platform: either may throw. *)
Variable URL_hostname : string -> completion string.
Variable JSON_parse : string -> completion value.

Definition isProviderRequest (url : string) : bool :=
  match URL_hostname url with
  | Normal hostname =>
      existsb (fun domain => includes domain hostname) providerDomains
  | Throw _ => false
  end.

Definition extractProvider (url : string) : string :=
  match URL_hostname url with
  | Normal hostname =>
      if includes "openrouter.ai" hostname then "openrouter"
      else if includes "api.deepseek.com" hostname then "deepseek"
      else if includes "api.openai.com" hostname then "openai"
      else if includes "generativelanguage.googleapis.com" hostname
           then "gemini"
      else if includes "api.anthropic.com" hostname then "anthropic"
      else if includes "httpbin.org" hostname then "test"
      else hostname
  | Throw _ => "unknown"
  end.

(** The request object returned by the interceptor: the captured call,
    the closure variable [body], and what was handed on to the original
    [write] and [end]. *)
Record ClientRequest : Type := {
  interceptedReq : InterceptedRequest;
  body : string;
  handed_on : list (option string);
  ended : bool
}.

Inductive issued : Type :=
| PassThrough
| Intercepted (req : ClientRequest).

Definition options_method (options : string + RequestOptions) : string :=
  match options with
  | inl _ => "GET"
  | inr o => or_else (opt_method o) "GET"
  end.

Definition options_headers (options : string + RequestOptions) : value :=
  match options with
  | inl _ => VObj []
  | inr o => if truthy (opt_headers o) then opt_headers o else VObj []
  end.

(** The function [createInterceptor] returns, up to the point where it
    returns [req]. *)
Definition createInterceptor (isHttps : bool) (env : Env) (g : Global)
  (options : string + RequestOptions) : issued :=
  let url := parseUrl options isHttps in
  let method := options_method options in
  let headers := options_headers options in
  if negb (isProviderRequest url) then PassThrough
  else
    let interceptedReq :=
      {| requestId :=
           match getCurrentRequestId g with
           | Some requestId =>
               if truthy (VStr requestId) then Some requestId else None
           | None => None
           end;
         startTime := Date_now env;
         ir_url := url;
         ir_method := method;
         ir_headers := VObj (spread headers);
         ir_body := None;
         provider := extractProvider url |} in
    Intercepted
      {| interceptedReq := interceptedReq; body := "";
         handed_on := []; ended := false |}.

(** [chunk.toString()] appended when [chunk] is truthy. *)
Definition append_chunk (body : string) (chunk : option string) : string :=
  match chunk with
  | Some text => body ++ text
  | None => body
  end.

(** [req.write] *)
Definition req_write (chunk : option string) (req : ClientRequest)
  : ClientRequest :=
  {| interceptedReq := interceptedReq req;
     body := append_chunk (body req) chunk;
     handed_on := (handed_on req ++ [chunk])%list;
     ended := ended req |}.

Definition console_warn (msg : string) (l : Logger) : Logger :=
  console_error msg l.

(** [body ? JSON.parse(body) : null] *)
Definition parse_or_null (text : string) : completion value :=
  if truthy (VStr text) then JSON_parse text else Normal VNull.

(** [req.end] *)
Definition req_end (env : Env) (chunk : option string) (req : ClientRequest)
  (l : Logger) : ClientRequest * Logger :=
  let body := append_chunk (body req) chunk in
  let i := interceptedReq req in
  let i :=
    {| requestId := requestId i; startTime := startTime i;
       ir_url := ir_url i; ir_method := ir_method i;
       ir_headers := ir_headers i; ir_body := Some body;
       provider := provider i |} in
  let l :=
    match requestId i with
    | Some requestId =>
        match
          (parsedBody <- parse_or_null body ;;
           Normal (logTransformedRequest env requestId (ir_url i)
                     (ir_method i) (ir_headers i) parsedBody
                     (or_else (Some (provider i)) "unknown") l))
        with
        | Normal l' => l'
        | Throw _ => console_warn "Failed to log transformed request:" l
        end
    | None => l
    end in
  ({| interceptedReq := i; body := body;
      handed_on := (handed_on req ++ [chunk])%list; ended := true |}, l).

(** The response as [handleResponse] reads it. *)
Record IncomingMessage : Type := {
  statusCode : Z;
  res_headers : value
}.

(** [res.on('data', ...)] *)
Definition on_data (chunk : string) (responseBody : string) : string :=
  responseBody ++ chunk.

(** [res.on('end', ...)] *)
Definition on_end (env : Env) (res : IncomingMessage)
  (i : InterceptedRequest) (responseBody : string) (l : Logger) : Logger :=
  match requestId i with
  | Some requestId =>
      match
        (parsedBody <- parse_or_null responseBody ;;
         Normal (logProviderResponse env requestId (statusCode res)
                   (res_headers res) parsedBody (startTime i) l))
      with
      | Normal l' => l'
      | Throw _ => console_warn "Failed to log provider response:" l
      end
  | None => l
  end.

(** [handleResponse]: the response arrives in chunks, then ends. *)
Definition handleResponse (env : Env) (res : IncomingMessage)
  (i : InterceptedRequest) (chunks : list string) (l : Logger) : Logger :=
  on_end env res i
    (fold_left (fun text chunk => on_data chunk text) chunks "") l.
End Platform.

(** A request body written in several chunks before [req.end]. *)
Definition write_all (chunks : list (option string)) (req : ClientRequest)
  : ClientRequest :=
  fold_left (fun r chunk => req_write chunk r) chunks req.

(** The text the chunks add up to. *)
Definition joined (chunks : list (option string)) : string :=
  fold_left append_chunk chunks "".

(** ** install and uninstall

    The functions held by [http.request] and [https.request] are told
    apart by where they come from: Node's own, one put there by other
    code, or one made by [createInterceptor] around an original.  The
    console lines are left out. *)
Inductive requester : Type :=
| Native (isHttps : bool)
| Foreign (tag : string)
| Intercepting (isHttps : bool) (originalRequest : requester).

(** The [request] properties of the [http] and [https] modules. *)
Record Modules : Type := {
  http_request : requester;
  https_request : requester
}.

(** The fields of the [HTTPInterceptor] instance. *)
Record Instance : Type := {
  originalHttpRequest : requester;
  originalHttpsRequest : requester;
  installed : bool
}.

Definition constructor (m : Modules) : Instance :=
  {| originalHttpRequest := http_request m;
     originalHttpsRequest := https_request m;
     installed := false |}.

Definition install (this : Instance) (m : Modules) : Instance * Modules :=
  if installed this then (this, m)
  else
    ({| originalHttpRequest := originalHttpRequest this;
        originalHttpsRequest := originalHttpsRequest this;
        installed := true |},
     {| http_request := Intercepting false (originalHttpRequest this);
        https_request := Intercepting true (originalHttpsRequest this) |}).

Definition uninstall (this : Instance) (m : Modules) : Instance * Modules :=
  if negb (installed this) then (this, m)
  else
    ({| originalHttpRequest := originalHttpRequest this;
        originalHttpsRequest := originalHttpsRequest this;
        installed := false |},
     {| http_request := originalHttpRequest this;
        https_request := originalHttpsRequest this |}).

End HTTPInterceptor.

(* ================================================================== *)
(** * The hooks of the start-up file, and the process as a whole       *)
(* ================================================================== *)

Module Run.
Import JS RequestLogger HTTPInterceptor.

(** The inbound request as the hooks read it. *)
Record Request : Type := {
  rq_url : string;
  rq_requestId : option string;
  rq_startTime : option Z
}.

Record Reply : Type := {
  rp_statusCode : Z;
  rp_headers : value
}.

(** [req.url.startsWith("/v1/messages")] *)
Definition tracked (req : Request) : bool := prefix "/v1/messages" (rq_url req).

(** [(req as any).requestId], when truthy. *)
Definition truthy_id (req : Request) : option string :=
  match rq_requestId req with
  | Some id => if truthy (VStr id) then Some id else None
  | None => None
  end.

(** The second [preHandler] hook (the call of [router] left out). *)
Definition preHandler (env : Env) (req : Request) (g : Global)
  : Request * Global :=
  if tracked req
  then
    ({| rq_url := rq_url req; rq_requestId := rq_requestId req;
        rq_startTime := Some (Date_now env) |},
     match truthy_id req with
     | Some id => setCurrentRequestId id g
     | None => g
     end)
  else (req, g).

Section Platform.
Variable URL_hostname : string -> completion string.
Variable JSON_parse : string -> completion value.

(** The [onSend] hook, up to its [await]: the response is logged.
    Nothing inside the [try] throws in this model ([logResponse] contains
    its own failures), so the [catch] branch, which calls [logError] and
    clears the id as well, is not entered. *)
Definition onSend (env : Env) (req : Request) (reply : Reply)
  (payload : value) (l : Logger) : Logger :=
  match (if tracked req then truthy_id req else None) with
  | Some requestId =>
      let startTime :=
        match rq_startTime req with
        | Some t => if (t =? 0)%Z then Date_now env else t
        | None => Date_now env
        end in
      let responseBody :=
        match payload with
        | VStr text =>
            match JSON_parse text with
            | Normal v => v
            | Throw _ => payload
            end
        | _ => payload
        end in
      logResponse env requestId (rp_statusCode reply) (rp_headers reply)
        responseBody startTime l
  | None => l
  end.

(** The [onSend] hook, after its [await]: the slot is cleared. *)
Definition onSend_resumed (req : Request) (g : Global) : Global :=
  match (if tracked req then truthy_id req else None) with
  | Some _ => clearCurrentRequestId g
  | None => g
  end.

(** ** The process: one event at a time

    Node runs one callback at a time; callbacks of different inbound
    requests interleave, and a hook gives way at its [await].
    [PreHandler] is the hook from its [await] on (before it, only the
    request object is touched).  [HttpRequest] is an outbound call issued
    and ended in one go; its first argument names the inbound request
    whose handling issued it, which the code has no access to. *)
Inductive event : Type :=
| PreHandler (env : Env) (req : Request)
| HttpRequest (cause : string) (env : Env) (isHttps : bool)
    (options : string + RequestOptions) (chunk : option string)
| OnSend (env : Env) (req : Request) (reply : Reply) (payload : value)
| OnSendResumed (req : Request).

(** [attributed] lists, for every intercepted call, the request that
    caused it and the id the interceptor attached to it. *)
Record System : Type := {
  global : Global;
  logger : Logger;
  attributed : list (string * option string)
}.

Definition step (s : System) (e : event) : System :=
  match e with
  | PreHandler env req =>
      {| global := snd (preHandler env req (global s));
         logger := logger s; attributed := attributed s |}
  | HttpRequest cause env isHttps options chunk =>
      match createInterceptor URL_hostname isHttps env (global s) options with
      | PassThrough => s
      | Intercepted req =>
          {| global := global s;
             logger := snd (req_end JSON_parse env chunk req (logger s));
             attributed :=
               (attributed s
                ++ [(cause, requestId (interceptedReq req))])%list |}
      end
  | OnSend env req reply payload =>
      {| global := global s;
         logger := onSend env req reply payload (logger s);
         attributed := attributed s |}
  | OnSendResumed req =>
      {| global := onSend_resumed req (global s);
         logger := logger s; attributed := attributed s |}
  end.

Definition run (s : System) (trace : list event) : System :=
  fold_left step trace s.

(** Every intercepted call carries the id of the request that caused
    it. *)
Definition isolated (s : System) : Prop :=
  forall cause o, In (cause, o) (attributed s) -> o = Some cause.
End Platform.


(** The events of one inbound request that makes one provider call. *)
Definition unit_of_work (env : Env) (id : string)
  (options : string + RequestOptions) (chunk : option string)
  (reply : Reply) (payload : value) : list event :=
  let req := {| rq_url := "/v1/messages"; rq_requestId := Some id;
                rq_startTime := None |} in
  let req' := fst (preHandler env req {| currentRequestId := None |}) in
  [PreHandler env req;
   HttpRequest id env true options chunk;
   OnSend env req' reply payload;
   OnSendResumed req'].

(** Inbound requests served one after the other. *)
Record work : Type := {
  w_env : Env;
  w_id : string;
  w_options : string + RequestOptions;
  w_chunk : option string;
  w_reply : Reply;
  w_payload : value
}.

Definition serial (ws : list work) : list event :=
  flat_map
    (fun w => unit_of_work (w_env w) (w_id w) (w_options w) (w_chunk w)
                (w_reply w) (w_payload w))
    ws.

End Run.

(* ================================================================== *)
(** * src/server.ts: the two log endpoints                             *)
(* ================================================================== *)

Module Server.
Import JS RequestLogger.

(** ** [parseInt(string)], radix left out

    [None] is [NaN].  Leading white space is skipped, a sign is read, a
    [0x] prefix switches to base 16, and the longest run of digits is the
    result; the value is exact. *)
Definition is_space (c : ascii) : bool :=
  let n := nat_of_ascii c in
  ((9 <=? n)%nat && (n <=? 13)%nat) || (n =? 32)%nat || (n =? 160)%nat.

Fixpoint trim_start (s : string) : string :=
  match s with
  | String c r => if is_space c then trim_start r else s
  | "" => ""
  end.

Definition digit_in (radix : Z) (c : ascii) : option Z :=
  let n := nat_of_ascii c in
  let d :=
    if (48 <=? n)%nat && (n <=? 57)%nat then Some (Z.of_nat (n - 48))
    else if (97 <=? n)%nat && (n <=? 122)%nat then Some (Z.of_nat (n - 87))
    else if (65 <=? n)%nat && (n <=? 90)%nat then Some (Z.of_nat (n - 55))
    else None in
  match d with
  | Some v => if (v <? radix)%Z then Some v else None
  | None => None
  end.

Fixpoint digits (radix : Z) (acc : option Z) (s : string) : option Z :=
  match s with
  | String c r =>
      match digit_in radix c with
      | Some d =>
          digits radix
            (Some (radix * match acc with Some a => a | None => 0 end + d)%Z)
            r
      | None => acc
      end
  | "" => acc
  end.

Definition parseInt (input : option string) : option Z :=
  let inputString :=
    match input with
    | Some text => text
    | None => "undefined"
    end in
  let trimmed := trim_start inputString in
  let '(sign, unsigned) :=
    match trimmed with
    | String c r =>
        if (nat_of_ascii c =? 45)%nat then ((-1)%Z, r)
        else if (nat_of_ascii c =? 43)%nat then (1%Z, r)
        else (1%Z, trimmed)
    | "" => (1%Z, trimmed)
    end in
  let '(radix, rest) :=
    match unsigned with
    | String z (String x r) =>
        if (nat_of_ascii z =? 48)%nat
           && ((nat_of_ascii x =? 120)%nat || (nat_of_ascii x =? 88)%nat)
        then (16%Z, r) else (10%Z, unsigned)
    | _ => (10%Z, unsigned)
    end in
  match digits radix None rest with
  | Some n => Some (sign * n)%Z
  | None => None
  end.

(** What a handler does with the request: it sends a status with a text,
    or returns a value to be sent as JSON. *)
Inductive reply (A : Type) : Type :=
| Send (status : Z) (payload : string)
| Return (a : A).
Arguments Send {A} status payload.
Arguments Return {A} a.

(** [(req as any).accessLevel || "restricted"] *)
Definition accessLevel (req_accessLevel : value) : value :=
  if truthy req_accessLevel then req_accessLevel else VStr "restricted".

(** [accessLevel === "restricted"] *)
Definition restricted (req_accessLevel : value) : bool :=
  match accessLevel req_accessLevel with
  | VStr level => level =? "restricted"
  | _ => false
  end.

(** [parseInt(query.limit) || 100] *)
Definition limit_of (query_limit : option string) : Z :=
  match parseInt query_limit with
  | Some n => if (n =? 0)%Z then 100%Z else n
  | None => 100%Z
  end.

(** [GET /api/logs] *)
Definition get_api_logs (req_accessLevel : value)
  (query_limit : option string) (l : Logger)
  : reply (list RequestLogEntry) :=
  if restricted req_accessLevel
  then Send 401 "API key required to access logs"
  else Return (getRecentLogs (limit_of query_limit) l).

(** [GET /api/logs/:id] *)
Definition get_api_logs_id (req_accessLevel : value) (id : string)
  (l : Logger) : reply RequestLogEntry :=
  if restricted req_accessLevel
  then Send 401 "API key required to access logs"
  else
    match getLogById id l with
    | Some log => Return log
    | None => Send 404 "Log not found"
    end.

End Server.

(* ================================================================== *)
(** * Notions used to state the properties                             *)
(* ================================================================== *)

Module Notions.
Import JS RequestLogger HTTPInterceptor Run.

(** Two serializations have the same kind of outcome, the second text
    being no shorter. *)
Definition no_shorter (c p : option string) : Prop :=
  match c, p with
  | None, None => True
  | Some a, Some b => String.length a <= String.length b
  | _, _ => False
  end.

Definition outcome_le {A : Type} (R : A -> A -> Prop) (c p : completion A)
  : Prop :=
  match c, p with
  | Normal a, Normal b => R a b
  | Throw _, Throw _ => True
  | _, _ => False
  end.

(** Every binding of [k] already holds [v]. *)
Definition all_bound (k : string) (v : value) (o : obj) : Prop :=
  Forall (fun kv => fst kv = k -> snd kv = v) o.

(** One redaction step of [sanitizeHeaders]. *)
Definition redact (k : string) (o : obj) : obj :=
  if truthy (get k o) then set k REDACTED o else o.

(** After its step, a redaction step changes nothing, also once other
    keys have been redacted. *)
Definition settled (k : string) (o : obj) : Prop :=
  (has k o = true /\ all_bound k REDACTED o /\ get k o = REDACTED)
  \/ truthy (get k o) = false.

(** The first [threshold] units followed by the truncation marker. *)
Definition truncate (s : string) : string :=
  substring0 threshold s ++ TRUNCATED.

(** ** The record store *)

(** The stage-mutating calls, with their arguments after the id. *)
Inductive mutation : Type :=
| SetRouting (tokenCount : Z) (selectedModel reason : string)
| SetTransformedRequest (url method : string) (headers body : value)
    (provider : string)
| SetProviderResponse (status : Z) (headers body : value) (startTime : Z)
| SetResponse (status : Z) (headers body : value) (startTime : Z)
| SetError (error : value).

Definition mutate (env : Env) (id : string) (m : mutation) (l : Logger)
  : completion Logger :=
  match m with
  | SetRouting n model reason => Normal (logRouting env id n model reason l)
  | SetTransformedRequest u m h b p =>
      Normal (logTransformedRequest env id u m h b p l)
  | SetProviderResponse st h b t =>
      Normal (logProviderResponse env id st h b t l)
  | SetResponse st h b t => Normal (logResponse env id st h b t l)
  | SetError e => logError env id e l
  end.

(** The two calls that complete a record. *)
Definition completing (m : mutation) : bool :=
  match m with
  | SetResponse _ _ _ _ | SetError _ => true
  | _ => false
  end.

(** Calls on one id, one after the other, while none throws. *)
Fixpoint mutate_all (id : string) (calls : list (Env * mutation)) (l : Logger)
  : completion Logger :=
  match calls with
  | [] => Normal l
  | (env, m) :: rest => l' <- mutate env id m l ;; mutate_all id rest l'
  end.

(** The calls that change the logger.  A call that throws leaves the
    logger as it was. *)
Inductive call : Type :=
| Create (env : Env) (id : string) (req : IncomingRequest)
| Mutate (env : Env) (id : string) (m : mutation).

Definition exec (l : Logger) (c : call) : Logger :=
  match c with
  | Create env id req => logRequest env id req l
  | Mutate env id m =>
      match mutate env id m l with
      | Normal l' => l'
      | Throw _ => l
      end
  end.

(** The logger of the module after [calls]. *)
Definition after (calls : list call) : Logger :=
  fold_left exec calls requestLogger.

(** Whether [writeToFile] gets its line into the file. *)
Definition writes (env : Env) (entry : RequestLogEntry) : bool :=
  match JSON_stringify (entry_value entry) with
  | Normal _ => appendFileSync_ok env
  | Throw _ => false
  end.

(** [a] comes before [b] in [l]. *)
Definition precedes {A : Type} (l : list A) (a b : A) : Prop :=
  exists l1 l2 l3, l = (l1 ++ a :: l2 ++ b :: l3)%list.

(** The order of two timestamps.  They are texts of [toISOString]
    ([YYYY-MM-DDTHH:mm:ss.sssZ]), which order as the instants they
    denote when read unit by unit. *)
Definition earlier (t u : string) : Prop := String.compare t u = Lt.

(** [a] is older than [b] among [entries]: an earlier timestamp, or the
    same timestamp and inserted earlier. *)
Definition older (entries : Map RequestLogEntry)
  (a b : string * RequestLogEntry) : Prop :=
  earlier (timestamp (snd a)) (timestamp (snd b))
  \/ (timestamp (snd a) = timestamp (snd b) /\ precedes entries a b).

(** One line per record, whatever the completing calls: the line count
    grows by one over any non-empty run of completing calls that all get
    their line written. *)
Definition persists_exactly_once : Prop :=
  forall (l l' : Logger) (id : string) (calls : list (Env * mutation)),
    getLogById id l <> None ->
    calls <> [] ->
    forallb (fun c => completing (snd c)) calls = true ->
    forallb (fun c => appendFileSync_ok (fst c)) calls = true ->
    mutate_all id calls l = Normal l' ->
    List.length (file l') = S (List.length (file l)).


(** ** The interceptor *)

(** The stored [transformedRequest] body of a record, if any. *)
Definition transformed_body (id : string) (l : Logger) : option value :=
  match getLogById id l with
  | Some e =>
      match transformedRequest e with
      | Some t => Some (tr_body t)
      | None => None
      end
  | None => None
  end.

Definition provider_body (id : string) (l : Logger) : option value :=
  match getLogById id l with
  | Some e =>
      match providerResponse e with
      | Some r => Some (sr_body r)
      | None => None
      end
  | None => None
  end.

(** A body that fails to parse is stored as its raw text, for the request
    and for the response of an intercepted call. *)
Definition raw_text_fallback (JSON_parse : string -> completion value) : Prop :=
  forall (env : Env) (l : Logger) (id text : string) (e : RequestLogEntry)
         (err : string),
    logging_disabled env = false ->
    getLogById id l = Some e ->
    parse_or_null JSON_parse text = Throw err ->
    (forall (chunk : option string) (req : ClientRequest),
        requestId (interceptedReq req) = Some id ->
        append_chunk (body req) chunk = text ->
        transformed_body id (snd (req_end JSON_parse env chunk req l))
        = Some (sanitizeBody (VStr text)))
    /\ (forall (res : IncomingMessage) (i : InterceptedRequest),
          requestId i = Some id ->
          provider_body id (on_end JSON_parse env res i text l)
          = Some (sanitizeBody (VStr text))).

(** ** Correlation *)



(** ** Data for the examples *)

Definition at_time (now : Z) (iso : string) : Env :=
  {| Date_now := now; Date_toISOString := iso; REQUEST_LOG := None;
     appendFileSync_ok := true |}.

Definition env0 : Env := at_time 1000 "2025-01-01T00:00:00.000Z".
Definition env1 : Env := at_time 2000 "2025-01-01T00:00:01.000Z".
Definition env2 : Env := at_time 3000 "2025-01-01T00:00:02.000Z".

Definition post_messages : IncomingRequest :=
  {| req_method := "POST"; req_url := "/v1/messages";
     req_headers := VObj [("authorization", VStr "Bearer sk-1")];
     req_body := VObj [("model", VStr "x")] |}.

(** A text of 1001 units. *)
Definition long_text : string :=
  string_of_list_ascii (repeat "x"%char 1001).

Definition anthropic : string + RequestOptions :=
  inr {| opt_hostname := Some "api.anthropic.com"; opt_host := None;
         opt_port := None; opt_path := Some "/v1/messages";
         opt_method := Some "POST";
         opt_headers := VObj [("x-api-key", VStr "sk-ant-1")] |}.

Definition ok_reply : Reply :=
  {| rp_statusCode := 200; rp_headers := VObj [] |}.

(** The module's logger holding fresh records for two inbound requests,
    nothing armed, no call made yet. *)
Definition two_requests : System :=
  {| global := {| currentRequestId := None |};
     logger := logRequest env0 "req_b" post_messages
                 (logRequest env0 "req_a" post_messages requestLogger);
     attributed := [] |}.

(** A logger holding at most two records. *)
Definition small_logger : Logger :=
  {| logs := []; maxLogs := 2; file := []; console := [] |}.

(** A header name that matches [authorization] or [x-api-key] whatever
    its case. *)
Definition sensitive (k : string) : bool :=
  (toLowerCase k =? "authorization") || (toLowerCase k =? "x-api-key").

(** [sanitizeHeaders] redacting on a case-insensitive match. *)
Definition redacts_case_insensitively : Prop :=
  forall (headers : value) (k : string),
    has k (spread headers) = true ->
    get k (spread (sanitizeHeaders headers))
    = if sensitive k then REDACTED else get k (spread headers).

(** ** Further notions *)

(** The record a stage-mutating call makes of the stored one; it throws
    where [logError] does. *)
Definition stage (env : Env) (m : mutation) (e : RequestLogEntry)
  : completion RequestLogEntry :=
  match m with
  | SetRouting n model reason =>
      Normal (set_routing {| tokenCount := n; selectedModel := model;
                             routingReason := reason |} e)
  | SetTransformedRequest u me h b p =>
      Normal (set_transformedRequest
                {| tr_url := u; tr_method := me;
                   tr_headers := sanitizeHeaders h;
                   tr_body := sanitizeBody b; tr_provider := p |} e)
  | SetProviderResponse st h b t =>
      Normal (set_providerResponse
                {| status := st; sr_headers := sanitizeHeaders h;
                   sr_body := sanitizeBody b;
                   duration := Date_now env - t |} e)
  | SetResponse st h b t =>
      Normal (set_response
                {| status := st; sr_headers := sanitizeHeaders h;
                   sr_body := sanitizeBody b;
                   duration := Date_now env - t |} e)
  | SetError err =>
      msg <- GetV err "message" ;;
      stk <- GetV err "stack" ;;
      Normal (set_error {| message := msg; stack := stk |} e)
  end.

(** The order a stable sort by [compareFn] puts the elements of [l] in:
    smaller first, equal ones as they stand in [l]. *)
Definition before {A : Type} (compareFn : A -> A -> comparison)
  (l : list A) (a b : A) : Prop :=
  compareFn a b = Lt \/ (compareFn a b = Eq /\ precedes l a b).

(** The comparator of [getRecentLogs]. *)
Definition newest_first (a b : RequestLogEntry) : comparison :=
  localeCompare (timestamp b) (timestamp a).

Definition call_env (c : call) : Env :=
  match c with
  | Create env _ _ => env
  | Mutate env _ _ => env
  end.

Definition is_completing (c : call) : bool :=
  match c with
  | Create _ _ _ => false
  | Mutate _ _ m => completing m
  end.

(** A record with its response or its error stage. *)
Definition completed (e : RequestLogEntry) : Prop :=
  response e <> None \/ error e <> None.

(** Under [k] a header map holds the marker or nothing truthy. *)
Definition redacted_or_falsy (k : string) (headers : value) : Prop :=
  get k (spread headers) = REDACTED
  \/ truthy (get k (spread headers)) = false.

Definition no_secret (headers : value) : Prop :=
  redacted_or_falsy "authorization" headers
  /\ redacted_or_falsy "x-api-key" headers.

(** No header map of the record holds a secret under the two keys. *)
Definition entry_no_secret (e : RequestLogEntry) : Prop :=
  no_secret (or_headers (originalRequest e))
  /\ (forall t, transformedRequest e = Some t -> no_secret (tr_headers t))
  /\ (forall r, providerResponse e = Some r -> no_secret (sr_headers r))
  /\ (forall r, response e = Some r -> no_secret (sr_headers r)).

(** A text of at most 1015 units, or an array or object whose compact
    serialization has at most 1000. *)
Definition bounded_body (v : value) : Prop :=
  match v with
  | VStr t => String.length t <= 1015
  | VArr _ | VObj _ =>
      exists str, JSON_stringify v = Normal (Some str)
                  /\ String.length str <= 1000
  | _ => True
  end.

(** The body that reaches [logResponse] from the [onSend] hook. *)
Definition responseBody_of (JSON_parse : string -> completion value)
  (payload : value) : value :=
  match payload with
  | VStr text =>
      match JSON_parse text with
      | Normal v => v
      | Throw _ => payload
      end
  | _ => payload
  end.

(** An event other than an outbound call to a host that is no provider. *)
Definition reaches_interceptor (URL_hostname : string -> completion string)
  (e : event) : bool :=
  match e with
  | HttpRequest _ _ isHttps options _ =>
      isProviderRequest URL_hostname (parseUrl options isHttps)
  | _ => true
  end.

Definition provider_names : list string :=
  ["openrouter"; "deepseek"; "openai"; "gemini"; "anthropic"; "test"].

Definition node_modules : Modules :=
  {| http_request := Native false; https_request := Native true |}.

Definition env_off : Env :=
  {| Date_now := 1000; Date_toISOString := "2025-01-01T00:00:00.000Z";
     REQUEST_LOG := Some "false"; appendFileSync_ok := true |}.

Definition env_disk_full : Env :=
  {| Date_now := 2000; Date_toISOString := "2025-01-01T00:00:01.000Z";
     REQUEST_LOG := None; appendFileSync_ok := false |}.

End Notions.

(* ================================================================== *)
(** * Facts about the JavaScript fragment                              *)
(* ================================================================== *)

Module JSFacts.
Import JS Notions.

Lemma length_append (a b : string) :
  String.length (a ++ b) = String.length a + String.length b.
Proof. induction a as [|c a IH]; simpl; [reflexivity | now rewrite IH]. Qed.

Lemma length_substring0 (n : nat) (s : string) :
  String.length (substring0 n s) = Nat.min n (String.length s).
Proof.
  unfold substring0. revert s.
  induction n as [|n IH]; intros [|c s]; simpl; try reflexivity.
  now rewrite IH.
Qed.

(** A prefix that is already [n] long is what [substring(0, n)] returns. *)
Lemma substring0_exact (a b : string) :
  substring0 (String.length a) (a ++ b) = a.
Proof.
  unfold substring0. induction a as [|c a IH]; simpl.
  - now destruct b.
  - now rewrite IH.
Qed.

Lemma substring0_short (n : nat) (s : string) :
  String.length s <= n -> substring0 n s = s.
Proof.
  unfold substring0. revert s.
  induction n as [|n IH]; intros [|c s] H; simpl in *; try reflexivity; try lia.
  rewrite IH; [reflexivity | lia].
Qed.

Lemma length_concat_le (sep sep' : string) (l l' : list string) :
  String.length sep <= String.length sep' ->
  Forall2 (fun a b => String.length a <= String.length b) l l' ->
  String.length (String.concat sep l) <= String.length (String.concat sep' l').
Proof.
  intros Hsep H. induction H as [|a b l l' Hab H IH]; simpl; [lia|].
  destruct H as [|a2 b2 l l' Hab2 H]; [exact Hab|].
  change (String.length (a ++ sep ++ String.concat sep (a2 :: l))
          <= String.length (b ++ sep' ++ String.concat sep' (b2 :: l'))).
  rewrite !length_append. lia.
Qed.

Lemma sequence_le {A B : Type} (R : A -> A -> Prop)
  (f g : B -> completion A) (l : list B) :
  Forall (fun x => outcome_le R (f x) (g x)) l ->
  outcome_le (Forall2 R) (sequence (map f l)) (sequence (map g l)).
Proof.
  induction 1 as [|x l Hx _ IH]; simpl; [constructor|].
  destruct (f x), (g x); simpl in *; try contradiction; trivial.
  destruct (sequence (map f l)), (sequence (map g l));
    simpl in *; try contradiction; trivial.
  now constructor.
Qed.

Lemma wrap_le (o c ind : string) (l l' : list string) :
  Forall2 (fun a b => String.length a <= String.length b) l l' ->
  String.length (wrap o c "" "" "" l)
  <= String.length (wrap o c "  " ind (ind ++ "  ") l').
Proof.
  intros H. unfold wrap.
  destruct H as [|a b l l' Hab H]; [lia|].
  change ("  " =? "") with false. change ("" =? "") with true.
  cbv iota.
  assert (Hc : String.length (String.concat "," (a :: l))
               <= String.length
                    (String.concat ("," ++ newline ++ (ind ++ "  "))
                       (b :: l'))).
  { apply length_concat_le; [|now constructor].
    rewrite length_append. simpl. lia. }
  rewrite !length_append.
  revert Hc.
  generalize (String.length (String.concat "," (a :: l))).
  generalize (String.length
                (String.concat ("," ++ newline ++ (ind ++ "  ")) (b :: l'))).
  intros. lia.
Qed.

Lemma member_le (k : string) (a b : option string) :
  no_shorter a b ->
  Forall2 (fun a b => String.length a <= String.length b)
    (member "" (k, a)) (member "  " (k, b)).
Proof.
  destruct a as [a|], b as [b|]; simpl; try contradiction; intros H;
    [|constructor].
  unfold member; cbn [snd fst].
  change ("  " =? "") with false. change ("" =? "") with true. cbv iota.
  constructor; [|constructor].
  rewrite !length_append. simpl. lia.
Qed.

Lemma stringify_2_no_shorter (v : value) (ind : string) :
  outcome_le no_shorter
    (SerializeJSONProperty "" "" v) (SerializeJSONProperty "  " ind v).
Proof.
  revert ind. induction v as [| |b|n|n|s|items IH|props IH] using value_ind';
    intros ind; simpl; trivial; try apply Nat.le_refl.
  - pose proof (sequence_le no_shorter
                  (SerializeJSONProperty "" "")
                  (SerializeJSONProperty "  " (ind ++ "  ")) items) as H.
    destruct (sequence (map (SerializeJSONProperty "" "") items)),
             (sequence (map (SerializeJSONProperty "  " (ind ++ "  ")) items));
      simpl in *;
      try (exfalso; apply H; eapply Forall_impl; [|exact IH];
           intros; auto; fail);
      trivial.
    apply wrap_le.
    assert (F : Forall2 no_shorter a a0).
    { apply H. eapply Forall_impl; [|exact IH]. intros x Hx. apply Hx. }
    clear -F. induction F as [|x y l l' Hxy _ IHF]; simpl; constructor; trivial.
    destruct x, y; simpl in *; try contradiction; trivial.
  - set (R := fun (p q : string * option string) =>
                fst p = fst q /\ no_shorter (snd p) (snd q)).
    set (f := fun kv : string * value =>
                let (k, x) := kv in
                p <- SerializeJSONProperty "" "" x ;; Normal (k, p)).
    set (g := fun kv : string * value =>
                let (k, x) := kv in
                p <- SerializeJSONProperty "  " (ind ++ "  ") x ;;
                Normal (k, p)).
    assert (H : outcome_le (Forall2 R) (sequence (map f props))
                  (sequence (map g props))).
    { apply sequence_le. eapply Forall_impl; [|exact IH].
      intros [k x] Hx. simpl in Hx. specialize (Hx (ind ++ "  ")).
      unfold f, g.
      destruct (SerializeJSONProperty "" "" x),
               (SerializeJSONProperty "  " (ind ++ "  ") x);
        simpl in *; try contradiction; trivial.
      split; trivial. }
    destruct (sequence (map f props)), (sequence (map g props));
      simpl in *; try contradiction; trivial.
    apply wrap_le.
    clear -H. induction H as [|[k a1] [k' b1] l l' [Hk Hab] _ IHF]; simpl.
    + constructor.
    + simpl in Hk, Hab. subst k'.
      apply Forall2_app; [now apply member_le | exact IHF].
Qed.

(** ** Number::toString *)

Lemma length_zeros (n : nat) : String.length (zeros n) = n.
Proof. unfold zeros. induction n as [|n IH]; simpl; auto. Qed.

(** Only zeros at the end are taken off. *)
Lemma strip_zeros_spec (digits : string) :
  String.length (strip_zeros digits) <= String.length digits
  /\ strip_zeros digits
     ++ zeros (String.length digits - String.length (strip_zeros digits))
     = digits.
Proof.
  induction digits as [|d rest [L E]]; simpl; [split; [lia | reflexivity]|].
  destruct (strip_zeros rest) as [|d' rest'] eqn:S.
  - simpl in E. rewrite Nat.sub_0_r in E.
    destruct (Ascii.eqb_spec d "0"%char) as [->|_]; simpl.
    + split; [lia|]. unfold zeros in *. simpl. now rewrite E.
    + split; [lia|]. rewrite Nat.sub_0_r. now rewrite E.
  - simpl in *. split; [lia|]. now rewrite E.
Qed.

(** An integer of at most 21 digits prints as its digits, with its
    sign. *)
Lemma integer_prints_its_digits (p : positive) :
  String.length (digits_of p) <= 21 ->
  NumberToString (Zpos p) = digits_of p
  /\ NumberToString (Zneg p) = "-" ++ digits_of p.
Proof.
  intros H.
  assert (E : scientific (strip_zeros (digits_of p))
                (Z.of_nat (String.length (digits_of p)))
              = digits_of p).
  { destruct (strip_zeros_spec (digits_of p)) as [L S].
    unfold scientific.
    destruct (Z.leb_spec
                (Z.of_nat (String.length (strip_zeros (digits_of p))))
                (Z.of_nat (String.length (digits_of p)))); [|lia].
    destruct (Z.leb_spec (Z.of_nat (String.length (digits_of p))) 21);
      [|lia].
    cbn [andb]. rewrite <- Nat2Z.inj_sub by exact L.
    now rewrite Nat2Z.id. }
  cbn [NumberToString]. now rewrite E.
Qed.

(** From [1e21] on, and for fractions, the other forms. *)
Example NumberToString_forms :
  map NumberToString
    [Integer 0; Integer 200; Integer (-15); Integer (10 ^ 20);
     Integer (10 ^ 21); Integer 1180591620717411300000;
     Scientific false 15 1; Scientific true 12345 3;
     Scientific false 1 (-5); Scientific false 1 (-6);
     Scientific false 15 22; NaN; Infinity true]
  = ["0"; "200"; "-15"; "100000000000000000000";
     "1e+21"; "1.1805916207174113e+21";
     "1.5"; "-123.45"; "0.000001"; "1e-7"; "1.5e+21"; "NaN"; "-Infinity"].
Proof. reflexivity. Qed.

(** A number that is not finite is serialized as [null]. *)
Example stringify_numbers :
  JSON_stringify
    (VArr [VNum 1; VNum NaN; VNum (Scientific false 15 1);
           VNum (Infinity false)])
  = Normal (Some "[1,null,1.5,null]").
Proof. reflexivity. Qed.

End JSFacts.

(* ================================================================== *)
(** * The sanitizers                                                   *)
(* ================================================================== *)

Module Sanitizer.
Import JS RequestLogger Notions JSFacts.

(** ** Objects *)

Lemma get_set_same (k : string) (v : value) (o : obj) :
  has k o = true -> get k (set k v o) = v.
Proof.
  unfold set. intros H. rewrite H.
  induction o as [|[k' x] o IH]; simpl in *; [discriminate|].
  destruct (k' =? k) eqn:E; simpl.
  - now rewrite E.
  - rewrite E. apply IH. exact H.
Qed.

Lemma get_set_other (k k' : string) (v : value) (o : obj) :
  k <> k' -> get k (set k' v o) = get k o.
Proof.
  intros Hne. unfold set. destruct (has k' o).
  - induction o as [|[k0 x] o IH]; simpl; [reflexivity|].
    destruct (k0 =? k') eqn:E; simpl.
    + apply String.eqb_eq in E. subst k0.
      destruct (k' =? k) eqn:E'; [|exact IH].
      apply String.eqb_eq in E'. now subst.
    + now rewrite IH.
  - induction o as [|[k0 x] o IH]; simpl.
    + destruct (k' =? k) eqn:E'; [|reflexivity].
      apply String.eqb_eq in E'. now subst.
    + now rewrite IH.
Qed.

Lemma truthy_get_has (k : string) (o : obj) :
  truthy (get k o) = true -> has k o = true.
Proof.
  induction o as [|[k' x] o IH]; simpl; [discriminate|].
  destruct (k' =? k); simpl; auto.
Qed.

Lemma has_set (k k' : string) (v : value) (o : obj) :
  has k o = true -> has k (set k' v o) = true.
Proof.
  intros H. unfold set. destruct (has k' o).
  - induction o as [|[k0 x] o IH]; simpl in *; [discriminate|].
    destruct (k0 =? k') eqn:E; simpl;
      destruct (k0 =? k); simpl in *; auto.
  - induction o as [|[k0 x] o IH]; simpl in *; [discriminate|].
    destruct (k0 =? k); simpl in *; auto.
Qed.

Lemma keys_set (k : string) (v : value) (o : obj) :
  has k o = true -> map fst (set k v o) = map fst o.
Proof.
  unfold set. intros ->.
  induction o as [|[k0 x] o IH]; simpl; [reflexivity|].
  rewrite IH. now destruct (k0 =? k).
Qed.

Lemma all_bound_set (k : string) (v : value) (o : obj) :
  has k o = true -> all_bound k v (set k v o).
Proof.
  unfold set, all_bound. intros ->.
  induction o as [|[k0 x] o IH]; simpl; constructor; trivial.
  destruct (k0 =? k) eqn:E; simpl; trivial.
  intros ->. now rewrite String.eqb_refl in E.
Qed.

Lemma all_bound_set_other (k k' : string) (v v' : value) (o : obj) :
  k <> k' -> all_bound k v o -> all_bound k v (set k' v' o).
Proof.
  unfold set, all_bound. intros Hne H. destruct (has k' o).
  - induction H as [|[k0 x] o Hx H IH]; simpl; constructor; trivial.
    destruct (k0 =? k') eqn:E; simpl in *; trivial.
    apply String.eqb_eq in E. subst k0. intros ->. now elim Hne.
  - apply Forall_app. split; trivial.
    constructor; [|constructor]. simpl. intros ->. now elim Hne.
Qed.

Lemma set_same (k : string) (v : value) (o : obj) :
  has k o = true -> all_bound k v o -> set k v o = o.
Proof.
  unfold set, all_bound. intros -> H.
  induction H as [|[k0 x] o Hx H IH]; simpl; [reflexivity|].
  rewrite IH. destruct (k0 =? k) eqn:E; trivial.
  apply String.eqb_eq in E. simpl in *. now rewrite (Hx E).
Qed.

Lemma sanitizeHeaders_redact (headers : value) :
  sanitizeHeaders headers
  = VObj (redact "x-api-key" (redact "authorization" (spread headers))).
Proof. reflexivity. Qed.

Lemma get_redact_same (k : string) (o : obj) :
  get k (redact k o) = if truthy (get k o) then REDACTED else get k o.
Proof.
  unfold redact. destruct (truthy (get k o)) eqn:E; trivial.
  apply get_set_same. now apply truthy_get_has.
Qed.

Lemma get_redact_other (k k' : string) (o : obj) :
  k <> k' -> get k (redact k' o) = get k o.
Proof.
  intros H. unfold redact. destruct (truthy (get k' o)); trivial.
  now apply get_set_other.
Qed.

Lemma keys_redact (k : string) (o : obj) :
  map fst (redact k o) = map fst o.
Proof.
  unfold redact. destruct (truthy (get k o)) eqn:E; trivial.
  apply keys_set. now apply truthy_get_has.
Qed.

Lemma settled_redact (k : string) (o : obj) : settled k (redact k o).
Proof.
  unfold settled, redact. destruct (truthy (get k o)) eqn:E; [left|now right].
  pose proof (truthy_get_has _ _ E) as H.
  repeat split.
  - now apply has_set.
  - now apply all_bound_set.
  - now apply get_set_same.
Qed.

Lemma settled_redact_other (k k' : string) (o : obj) :
  k <> k' -> settled k o -> settled k (redact k' o).
Proof.
  intros Hne [(H1 & H2 & H3)|H]; [left|right].
  - unfold redact. destruct (truthy (get k' o)); [|now auto].
    repeat split.
    + now apply has_set.
    + now apply all_bound_set_other.
    + now rewrite get_set_other.
  - now rewrite get_redact_other.
Qed.

Lemma redact_settled (k : string) (o : obj) : settled k o -> redact k o = o.
Proof.
  unfold redact. intros [(H1 & H2 & H3)|H].
  - rewrite H3. simpl. now apply set_same.
  - now rewrite H.
Qed.

(** ** Texts *)

Lemma length_TRUNCATED : String.length TRUNCATED = 15.
Proof. reflexivity. Qed.

Lemma length_truncate (s : string) :
  threshold < String.length s ->
  String.length (truncate s) = threshold + 15.
Proof.
  intros H. unfold truncate.
  rewrite length_append, length_substring0, length_TRUNCATED. lia.
Qed.

Lemma truncate_truncate (s : string) :
  threshold < String.length s -> truncate (truncate s) = truncate s.
Proof.
  intros H.
  assert (E : String.length (substring0 threshold s) = threshold)
    by (rewrite length_substring0; lia).
  unfold truncate. f_equal.
  rewrite <- E at 1. apply substring0_exact.
Qed.

Lemma truthy_long (s : string) :
  threshold < String.length s -> truthy (VStr s) = true.
Proof. destruct s; simpl; [lia | reflexivity]. Qed.

Lemma sanitizeBody_long (s : string) :
  threshold < String.length s -> sanitizeBody (VStr s) = VStr (truncate s).
Proof.
  intros H. unfold sanitizeBody. rewrite (truthy_long s H). cbn [negb].
  destruct (Nat.ltb_spec threshold (String.length s)); [reflexivity | lia].
Qed.

Lemma sanitizeBody_short (s : string) :
  String.length s <= threshold -> sanitizeBody (VStr s) = VStr s.
Proof.
  intros H. unfold sanitizeBody.
  destruct (negb (truthy (VStr s))); trivial.
  destruct (Nat.ltb_spec threshold (String.length s)); [lia | reflexivity].
Qed.

Lemma sanitizeBody_truncate (s : string) :
  threshold < String.length s ->
  sanitizeBody (VStr (truncate s)) = VStr (truncate s).
Proof.
  intros H. rewrite sanitizeBody_long.
  - now rewrite truncate_truncate.
  - rewrite length_truncate; [lia | exact H].
Qed.

(** Whenever the compact text is over the threshold, so is the indented
    one. *)
Lemma stringify_2_long (body : value) (str : string) :
  JSON_stringify body = Normal (Some str) ->
  exists pretty,
    JSON_stringify_2 body = Normal (Some pretty)
    /\ String.length str <= String.length pretty.
Proof.
  intros H. pose proof (stringify_2_no_shorter body "") as L.
  unfold JSON_stringify in H. unfold JSON_stringify_2.
  rewrite H in L.
  destruct (SerializeJSONProperty "  " "" body) as [[p|]|];
    simpl in L; try contradiction.
  now exists p.
Qed.

(** What [sanitizeBody] does on arrays and objects. *)
Lemma sanitizeBody_structured (body : value) :
  typeof body = "object" -> truthy body = true ->
  match JSON_stringify body with
  | Normal (Some str) =>
      if (threshold <? String.length str)%nat
      then exists pretty,
             JSON_stringify_2 body = Normal (Some pretty)
             /\ threshold < String.length pretty
             /\ sanitizeBody body = VStr (truncate pretty)
      else sanitizeBody body = body
  | _ => sanitizeBody body = UNPARSEABLE
  end.
Proof.
  intros Ht Hb.
  assert (E : sanitizeBody body =
              match JSON_stringify body with
              | Normal (Some str) =>
                  if (threshold <? String.length str)%nat
                  then match JSON_stringify_2 body with
                       | Normal (Some pretty) => VStr (truncate pretty)
                       | _ => UNPARSEABLE
                       end
                  else body
              | _ => UNPARSEABLE
              end).
  { unfold sanitizeBody. rewrite Hb. cbn [negb].
    destruct body; try discriminate; reflexivity. }
  rewrite E. clear E.
  destruct (JSON_stringify body) as [[str|]|] eqn:S; trivial.
  destruct (Nat.ltb_spec threshold (String.length str)); trivial.
  destruct (stringify_2_long body str S) as (pretty & -> & L).
  exists pretty. repeat split; trivial. lia.
Qed.

Lemma sanitizeBody_not_truthy (body : value) :
  truthy body = false -> sanitizeBody body = body.
Proof. intros H. unfold sanitizeBody. now rewrite H. Qed.

Lemma sanitizeBody_UNPARSEABLE : sanitizeBody UNPARSEABLE = UNPARSEABLE.
Proof. apply sanitizeBody_short. unfold threshold. simpl. lia. Qed.

Lemma sanitizeBody_twice (body : value) :
  sanitizeBody (sanitizeBody body) = sanitizeBody body.
Proof.
  destruct (truthy body) eqn:T.
  2: { now rewrite !(sanitizeBody_not_truthy body T). }
  destruct body as [| |b|n|n|s|items|props]; try discriminate;
    try (unfold sanitizeBody at 2; rewrite T; cbn [negb];
         unfold sanitizeBody; rewrite T; reflexivity).
  - destruct (Nat.le_gt_cases (String.length s) threshold) as [H|H].
    + now rewrite !(sanitizeBody_short s H).
    + rewrite (sanitizeBody_long s H). now apply sanitizeBody_truncate.
  - pose proof (sanitizeBody_structured (VArr items) eq_refl T) as H.
    destruct (JSON_stringify (VArr items)) as [[str|]|];
      try (rewrite H; apply sanitizeBody_UNPARSEABLE).
    destruct (threshold <? String.length str)%nat.
    + destruct H as (pretty & _ & L & ->). now apply sanitizeBody_truncate.
    + now rewrite !H.
  - pose proof (sanitizeBody_structured (VObj props) eq_refl T) as H.
    destruct (JSON_stringify (VObj props)) as [[str|]|];
      try (rewrite H; apply sanitizeBody_UNPARSEABLE).
    destruct (threshold <? String.length str)%nat.
    + destruct H as (pretty & _ & L & ->). now apply sanitizeBody_truncate.
    + now rewrite !H.
Qed.

Lemma sanitizeHeaders_twice (headers : value) :
  sanitizeHeaders (sanitizeHeaders headers) = sanitizeHeaders headers.
Proof.
  rewrite !sanitizeHeaders_redact. cbn [spread]. f_equal.
  set (o := spread headers).
  assert (A : settled "authorization"
                (redact "x-api-key" (redact "authorization" o))).
  { apply settled_redact_other; [discriminate | apply settled_redact]. }
  rewrite (redact_settled _ _ A).
  apply redact_settled, settled_redact.
Qed.

Lemma not_sensitive (k : string) :
  sensitive k = false -> k <> "authorization" /\ k <> "x-api-key".
Proof.
  unfold sensitive. intros H. split; intros ->; discriminate.
Qed.

(** ** The claims *)

(** C3, as amended.  [sanitizeHeaders] redacts the keys spelled exactly
    [authorization] and [x-api-key], and only when their value is truthy;
    a falsy value stays.  Every key that matches neither name, whatever
    the case, keeps its value, and the keys and their order are those of
    the input. *)
Theorem sanitizeHeaders_exact_keys (headers : value) (k : string) :
  (k = "authorization" \/ k = "x-api-key" ->
   get k (spread (sanitizeHeaders headers))
   = if truthy (get k (spread headers)) then REDACTED
     else get k (spread headers))
  /\ (sensitive k = false ->
      get k (spread (sanitizeHeaders headers)) = get k (spread headers))
  /\ map fst (spread (sanitizeHeaders headers)) = map fst (spread headers).
Proof.
  rewrite sanitizeHeaders_redact. cbn [spread]. split; [|split].
  - intros [-> | ->].
    + rewrite get_redact_other by discriminate. apply get_redact_same.
    + rewrite get_redact_same.
      now rewrite !(get_redact_other "x-api-key" "authorization")
        by discriminate.
  - intros H. destruct (not_sensitive k H) as [H1 H2].
    now rewrite !get_redact_other by assumption.
  - now rewrite !keys_redact.
Qed.

Lemma sanitizeHeaders_exact_keys_witness :
  get "authorization"
    (spread (sanitizeHeaders
               (VObj [("authorization", VStr "Bearer sk-1");
                      ("accept", VStr "*/*"); ("x-api-key", VStr "")])))
  = REDACTED
  /\ get "x-api-key"
       (spread (sanitizeHeaders
                  (VObj [("authorization", VStr "Bearer sk-1");
                         ("accept", VStr "*/*"); ("x-api-key", VStr "")])))
     = VStr ""
  /\ get "accept"
       (spread (sanitizeHeaders
                  (VObj [("authorization", VStr "Bearer sk-1");
                         ("accept", VStr "*/*"); ("x-api-key", VStr "")])))
     = VStr "*/*".
Proof.
  split; [|split].
  - exact (proj1 (sanitizeHeaders_exact_keys
                    (VObj [("authorization", VStr "Bearer sk-1");
                           ("accept", VStr "*/*"); ("x-api-key", VStr "")])
                    "authorization") (or_introl eq_refl)).
  - exact (proj1 (sanitizeHeaders_exact_keys
                    (VObj [("authorization", VStr "Bearer sk-1");
                           ("accept", VStr "*/*"); ("x-api-key", VStr "")])
                    "x-api-key") (or_intror eq_refl)).
  - exact (proj1 (proj2 (sanitizeHeaders_exact_keys
                    (VObj [("authorization", VStr "Bearer sk-1");
                           ("accept", VStr "*/*"); ("x-api-key", VStr "")])
                    "accept")) eq_refl).
Defined.

(** C3 as stated fails: the key [Authorization] matches case-insensitively
    and keeps its secret. *)
Lemma sanitizeHeaders_misses_capitalised : ~ redacts_case_insensitively.
Proof.
  intros H.
  specialize (H (VObj [("Authorization", VStr "Bearer sk-1")]) "Authorization"
                eq_refl).
  discriminate H.
Qed.

(** C8.  A text of at most [threshold] (1000) units is returned as it is.
    A longer text becomes its first 1000 units followed by the truncation
    marker, 1015 units in all.  An array or object is serialized: when
    that throws the result is the unparseable marker; when the compact
    text is within the threshold the body is returned as it is; otherwise
    the result is the first 1000 units of the indented text followed by
    the marker, again 1015 units. *)
Theorem sanitizeBody_threshold :
  (forall s : string,
      String.length s <= threshold -> sanitizeBody (VStr s) = VStr s)
  /\ (forall s : string,
        threshold < String.length s ->
        sanitizeBody (VStr s) = VStr (substring0 threshold s ++ TRUNCATED)
        /\ String.length (substring0 threshold s ++ TRUNCATED) = 1015)
  /\ (forall body : value,
        typeof body = "object" -> truthy body = true ->
        match JSON_stringify body with
        | Throw _ => sanitizeBody body = UNPARSEABLE
        | Normal None => sanitizeBody body = UNPARSEABLE
        | Normal (Some str) =>
            if (String.length str <=? threshold)%nat
            then sanitizeBody body = body
            else exists pretty : string,
                JSON_stringify_2 body = Normal (Some pretty)
                /\ sanitizeBody body
                   = VStr (substring0 threshold pretty ++ TRUNCATED)
                /\ String.length (substring0 threshold pretty ++ TRUNCATED)
                   = 1015
        end).
Proof.
  split; [|split].
  - apply sanitizeBody_short.
  - intros s H.
    split; [now apply sanitizeBody_long | now apply length_truncate].
  - intros body Ht Hb.
    pose proof (sanitizeBody_structured body Ht Hb) as H.
    destruct (JSON_stringify body) as [[str|]|]; trivial.
    destruct (Nat.leb_spec (String.length str) threshold) as [L|L];
      destruct (Nat.ltb_spec threshold (String.length str)) as [L'|L'];
      try lia; trivial.
    destruct H as (pretty & E & Lp & R).
    exists pretty. split; [exact E | split; [exact R |]].
    now apply length_truncate.
Qed.

Lemma sanitizeBody_threshold_witness :
  sanitizeBody (VStr "hello") = VStr "hello"
  /\ sanitizeBody (VStr long_text)
     = VStr (substring0 threshold long_text ++ TRUNCATED)
  /\ sanitizeBody (VArr [VBigInt 1]) = UNPARSEABLE
  /\ sanitizeBody (VObj [("model", VStr "x")]) = VObj [("model", VStr "x")].
Proof.
  destruct sanitizeBody_threshold as (Short & Long & Structured).
  split; [|split; [|split]].
  - apply (Short "hello"). unfold threshold. simpl. lia.
  - apply (Long long_text). vm_compute. apply le_n.
  - exact (Structured (VArr [VBigInt 1]) eq_refl eq_refl).
  - exact (Structured (VObj [("model", VStr "x")]) eq_refl eq_refl).
Defined.

(** The text cut for an object that is too long is the indented one: it
    opens with a brace, a line break and two spaces. *)
Example long_object_is_cut_from_indented_text :
  let body := VObj [("a", VStr long_text)] in
  let t :=
    match JSON_stringify_2 body with
    | Normal (Some pretty) => substring0 threshold pretty
    | _ => ""
    end in
  sanitizeBody body = VStr (t ++ TRUNCATED)
  /\ String.length t = 1000
  /\ substring0 4 t = "{" ++ newline ++ "  ".
Proof. repeat split; vm_compute; reflexivity. Qed.

(** Numbers count with the text [Number::toString] gives them: an array
    of 150 numbers [1e21] has a compact text of 901 units and is returned
    as it is; with [1e20], which prints its 21 digits, it is cut. *)
Example numbers_count_as_printed :
  sanitizeBody (VArr (repeat (VNum (10 ^ 21)) 150))
  = VArr (repeat (VNum (10 ^ 21)) 150)
  /\ typeof (sanitizeBody (VArr (repeat (VNum (10 ^ 20)) 150))) = "string".
Proof. split; vm_compute; reflexivity. Qed.

(** C9.  Each sanitizer applied twice gives what it gives applied once. *)
Theorem sanitizers_idempotent :
  (forall body : value, sanitizeBody (sanitizeBody body) = sanitizeBody body)
  /\ (forall headers : value,
        sanitizeHeaders (sanitizeHeaders headers) = sanitizeHeaders headers).
Proof. split; [apply sanitizeBody_twice | apply sanitizeHeaders_twice]. Qed.

(** C10.  A falsy body ([null], [undefined], the empty string, [0],
    [false]) is returned as it is. *)
Theorem sanitizeBody_falsy (body : value) :
  truthy body = false -> sanitizeBody body = body.
Proof. intros H. unfold sanitizeBody. now rewrite H. Qed.

Lemma sanitizeBody_falsy_witness :
  sanitizeBody VNull = VNull
  /\ sanitizeBody VUndefined = VUndefined
  /\ sanitizeBody (VStr "") = VStr ""
  /\ sanitizeBody (VNum 0) = VNum 0
  /\ sanitizeBody (VBool false) = VBool false.
Proof.
  split; [|split; [|split; [|split]]].
  - apply (sanitizeBody_falsy VNull). reflexivity.
  - apply (sanitizeBody_falsy VUndefined). reflexivity.
  - apply (sanitizeBody_falsy (VStr "")). reflexivity.
  - apply (sanitizeBody_falsy (VNum 0)). reflexivity.
  - apply (sanitizeBody_falsy (VBool false)). reflexivity.
Defined.

End Sanitizer.

(* ================================================================== *)
(** * The record store                                                 *)
(* ================================================================== *)

Module Store.
Import JS RequestLogger Notions.

(** ** The order of timestamps *)

Lemma compare_trans (a b c : string) :
  String.compare a b <> Gt -> String.compare b c <> Gt ->
  String.compare a c <> Gt.
Proof.
  revert b c. induction a as [|x a IH]; intros [|y b] [|z c]; simpl;
    try congruence.
  unfold Ascii.compare.
  destruct (N.compare_spec (N_of_ascii x) (N_of_ascii y)) as [E1|L1|G1];
    destruct (N.compare_spec (N_of_ascii y) (N_of_ascii z)) as [E2|L2|G2];
    destruct (N.compare_spec (N_of_ascii x) (N_of_ascii z)) as [E3|L3|G3];
    try congruence; try lia.
  apply IH.
Qed.

Lemma compare_refl (a : string) : String.compare a a = Eq.
Proof.
  induction a as [|x a IH]; simpl; [reflexivity|].
  unfold Ascii.compare. now rewrite N.compare_refl.
Qed.

(** ** The stable sort *)

Section SortFacts.
Context {A : Type} (compareFn : A -> A -> comparison).

Lemma insert_perm (x : A) (l : list A) :
  Permutation (insert compareFn x l) (x :: l).
Proof.
  induction l as [|y l IH]; simpl; [reflexivity|].
  destruct (compareFn x y); try reflexivity.
  rewrite IH. apply perm_swap.
Qed.

Lemma sort_perm (l : list A) : Permutation (sort compareFn l) l.
Proof.
  induction l as [|x l IH]; simpl; [reflexivity|].
  rewrite insert_perm. now constructor.
Qed.

Lemma length_sort (l : list A) :
  List.length (sort compareFn l) = List.length l.
Proof. apply Permutation_length, sort_perm. Qed.

(** Inserting [x] keeps a list sorted for [R] when [x] is related the
    right way to the elements it passes and to those it stops before. *)
Lemma insert_sorted (R : A -> A -> Prop) (x : A) (l : list A) :
  (forall y, In y l -> compareFn x y = Gt -> R y x) ->
  (forall y z, In y l -> compareFn x y <> Gt -> (z = y \/ R y z) ->
               In z l -> R x z) ->
  StronglySorted R l ->
  StronglySorted R (insert compareFn x l).
Proof.
  intros Hgt Hle H. induction H as [|y l Hl IH Hy]; simpl.
  - constructor; constructor.
  - destruct (compareFn x y) eqn:E.
    + constructor; [now constructor|].
      constructor.
      * apply (Hle y y); simpl; auto. congruence.
      * rewrite Forall_forall. intros z Hz.
        apply (Hle y z); simpl; auto; [congruence|].
        right. rewrite Forall_forall in Hy. now apply Hy.
    + constructor; [now constructor|].
      constructor.
      * apply (Hle y y); simpl; auto. congruence.
      * rewrite Forall_forall. intros z Hz.
        apply (Hle y z); simpl; auto; [congruence|].
        right. rewrite Forall_forall in Hy. now apply Hy.
    + constructor.
      * apply IH.
        -- intros y' Hy'. apply Hgt. now right.
        -- intros y' z Hy' Hc Hz Hin. apply (Hle y' z); simpl; auto.
      * rewrite Forall_forall. intros z Hz.
        apply (Permutation_in _ (insert_perm x l)) in Hz.
        destruct Hz as [<-|Hz].
        -- apply Hgt; simpl; auto.
        -- rewrite Forall_forall in Hy. now apply Hy.
Qed.
End SortFacts.

Lemma precedes_cons {A : Type} (x a b : A) (l : list A) :
  precedes l a b -> precedes (x :: l) a b.
Proof.
  intros (l1 & l2 & l3 & ->). now exists (x :: l1), l2, l3.
Qed.

Lemma precedes_head {A : Type} (x b : A) (l : list A) :
  In b l -> precedes (x :: l) x b.
Proof.
  intros H. apply in_split in H. destruct H as (l2 & l3 & ->).
  now exists [], l2, l3.
Qed.

Lemma older_cons (x a b : string * RequestLogEntry) (l : Map RequestLogEntry) :
  older l a b -> older (x :: l) a b.
Proof.
  intros [H|[H1 H2]]; [now left | right]. split; trivial.
  now apply precedes_cons.
Qed.

(** The sorted array lists the entries oldest first, entries with equal
    timestamps in insertion order. *)
Lemma sort_older (l : Map RequestLogEntry) :
  StronglySorted (older l) (sort by_timestamp l).
Proof.
  induction l as [|x l IH]; simpl; [constructor|].
  assert (S : StronglySorted (older (x :: l)) (sort by_timestamp l)).
  { clear -IH. induction IH as [|y s Hs IHs Hy]; constructor; trivial.
    eapply Forall_impl; [|exact Hy]. intros z. apply older_cons. }
  apply insert_sorted; trivial.
  - intros y Hy E. left. unfold earlier, by_timestamp, localeCompare in *.
    rewrite String.compare_antisym, E. reflexivity.
  - intros y z Hy E Hz Hin.
    assert (Hz' : In z l)
      by (apply (Permutation_in _ (sort_perm by_timestamp l)); exact Hin).
    assert (L : by_timestamp x z <> Gt).
    { unfold by_timestamp, localeCompare in *.
      destruct Hz as [->|[Hz|[Hz _]]]; trivial.
      - apply (compare_trans _ (timestamp (snd y))); trivial.
        unfold earlier in Hz. congruence.
      - now rewrite <- Hz. }
    unfold by_timestamp, localeCompare in L.
    destruct (String.compare (timestamp (snd x)) (timestamp (snd z))) eqn:C;
      [right | now left | congruence].
    split; [now apply String.compare_eq_iff | now apply precedes_head].
Qed.

Lemma StronglySorted_app {A : Type} (R : A -> A -> Prop) (l1 l2 : list A) :
  StronglySorted R (l1 ++ l2)%list ->
  forall a b, In a l1 -> In b l2 -> R a b.
Proof.
  induction l1 as [|x l1 IH]; simpl; intros H a b Ha Hb; [contradiction|].
  inversion H as [|? ? Hs Hx]; subst.
  destruct Ha as [<-|Ha].
  - rewrite Forall_forall in Hx. apply Hx, in_or_app. now right.
  - now apply IH.
Qed.

(** ** The map *)

Section MapFacts.
Context {V : Type}.
Implicit Types (m : Map V) (k : string) (v : V).

Lemma Map_get_None k m : Map_get k m = None -> ~ In k (map fst m).
Proof.
  induction m as [|[k' v'] m IH]; simpl; [tauto|].
  destruct (k' =? k) eqn:E; [discriminate|].
  apply String.eqb_neq in E. intros H [H'|H']; [congruence | now apply IH].
Qed.

Lemma Map_get_In k v m : Map_get k m = Some v -> In (k, v) m.
Proof.
  induction m as [|[k' v'] m IH]; simpl; [discriminate|].
  destruct (k' =? k) eqn:E; [|now right; apply IH].
  apply String.eqb_eq in E. intros [= ->]. left. now subst.
Qed.

Lemma Map_get_set_same k v m : Map_get k (Map_set k v m) = Some v.
Proof.
  induction m as [|[k' v'] m IH]; simpl.
  - now rewrite String.eqb_refl.
  - destruct (k' =? k) eqn:E; simpl; now rewrite E.
Qed.

Lemma Map_get_set_other k k' v m :
  k <> k' -> Map_get k (Map_set k' v m) = Map_get k m.
Proof.
  intros H. induction m as [|[k0 v0] m IH]; simpl.
  - destruct (k' =? k) eqn:E; [|reflexivity].
    apply String.eqb_eq in E. congruence.
  - destruct (k0 =? k') eqn:E; simpl; [|now rewrite IH].
    apply String.eqb_eq in E. subst k0.
    destruct (k' =? k) eqn:E'; [|reflexivity].
    apply String.eqb_eq in E'. congruence.
Qed.

Lemma keys_Map_set k v m :
  map fst (Map_set k v m)
  = match Map_get k m with
    | Some _ => map fst m
    | None => (map fst m ++ [k])%list
    end.
Proof.
  induction m as [|[k' v'] m IH]; simpl; [reflexivity|].
  destruct (k' =? k) eqn:E; simpl; [reflexivity|].
  rewrite IH. now destruct (Map_get k m).
Qed.

Lemma Map_ok_set k v m : Map_ok m -> Map_ok (Map_set k v m).
Proof.
  unfold Map_ok. intros H. rewrite keys_Map_set.
  destruct (Map_get k m) eqn:E; trivial.
  apply NoDup_app; trivial.
  - constructor; [tauto | constructor].
  - intros x Hx [<-|[]]. now apply (Map_get_None _ _ E).
Qed.


Lemma In_Map_delete k m (b : string * V) :
  In b (Map_delete k m) -> In b m.
Proof.
  induction m as [|[k' v'] m IH]; simpl; [tauto|].
  destruct (k' =? k); simpl; intuition.
Qed.

Lemma Map_ok_delete k m : Map_ok m -> Map_ok (Map_delete k m).
Proof.
  unfold Map_ok. induction m as [|[k' v'] m IH]; simpl; trivial.
  intros H. inversion H as [|? ? Hn Hm]; subst.
  destruct (k' =? k); simpl; trivial.
  constructor; [|now apply IH].
  intros Hin. apply Hn. apply in_map_iff in Hin.
  destruct Hin as (b & <- & Hb). apply in_map, (In_Map_delete _ _ _ Hb).
Qed.

Lemma Map_delete_key k m (b : string * V) :
  Map_ok m -> In b (Map_delete k m) -> fst b <> k.
Proof.
  unfold Map_ok. induction m as [|[k' v'] m IH]; simpl; [tauto|].
  intros H. inversion H as [|? ? Hn Hm]; subst.
  destruct (k' =? k) eqn:E.
  - apply String.eqb_eq in E. subst k'. intros Hb <-.
    apply Hn. now apply in_map.
  - apply String.eqb_neq in E. intros [<-|Hb]; [exact E | now apply IH].
Qed.

Lemma Map_delete_keeps k m (b : string * V) :
  In b m -> fst b <> k -> In b (Map_delete k m).
Proof.
  induction m as [|[k' v'] m IH]; simpl; [tauto|].
  intros [<-|Hb] Hk.
  - simpl in Hk. apply String.eqb_neq in Hk. rewrite Hk. now left.
  - destruct (k' =? k); [exact Hb | right; now apply IH].
Qed.

Lemma length_Map_delete k m :
  In k (map fst m) -> S (List.length (Map_delete k m)) = List.length m.
Proof.
  induction m as [|[k' v'] m IH]; simpl; [tauto|].
  destruct (k' =? k) eqn:E; [reflexivity|].
  apply String.eqb_neq in E. intros [H|H]; [congruence|].
  simpl. now rewrite IH.
Qed.

Lemma In_delete_all (ds : list (string * V)) m b :
  In b (delete_all ds m) -> In b m.
Proof.
  revert m. induction ds as [|d ds IH]; simpl; trivial.
  intros m H. apply IH in H. exact (In_Map_delete _ _ _ H).
Qed.

Lemma Map_ok_delete_all (ds : list (string * V)) m :
  Map_ok m -> Map_ok (delete_all ds m).
Proof.
  revert m. induction ds as [|d ds IH]; simpl; trivial.
  intros m H. now apply IH, Map_ok_delete.
Qed.

Lemma delete_all_key (ds : list (string * V)) m b :
  Map_ok m -> In b (delete_all ds m) -> ~ In (fst b) (map fst ds).
Proof.
  revert m. induction ds as [|d ds IH]; simpl; [tauto|].
  intros m Hm Hb [E|Hin].
  - apply In_delete_all in Hb. now apply (Map_delete_key _ _ _ Hm Hb).
  - now apply (IH _ (Map_ok_delete _ _ Hm) Hb).
Qed.

Lemma delete_all_keeps (ds : list (string * V)) m b :
  In b m -> ~ In (fst b) (map fst ds) -> In b (delete_all ds m).
Proof.
  revert m. induction ds as [|d ds IH]; simpl; trivial.
  intros m Hb Hn. apply IH; [|tauto].
  apply Map_delete_keeps; trivial. intros E. apply Hn. now left.
Qed.

Lemma length_delete_all (ds : list (string * V)) m :
  NoDup (map fst ds) ->
  (forall d, In d ds -> In (fst d) (map fst m)) ->
  (List.length (delete_all ds m) + List.length ds = List.length m)%nat.
Proof.
  revert m. induction ds as [|d ds IH]; simpl; intros m Hd Hin; [lia|].
  inversion Hd as [|? ? Hn Hd']; subst.
  assert (L : S (List.length (Map_delete (fst d) m)) = List.length m).
  { apply length_Map_delete, Hin. now left. }
  assert (R : (List.length (delete_all ds (Map_delete (fst d) m))
               + List.length ds = List.length (Map_delete (fst d) m))%nat).
  { apply IH; trivial. intros d' Hd2.
    assert (Hk : In (fst d') (map fst m)) by (apply Hin; now right).
    apply in_map_iff in Hk. destruct Hk as (b & Hb & Hbm).
    rewrite <- Hb. apply in_map, Map_delete_keeps; trivial.
    rewrite Hb. intros E. apply Hn. rewrite <- E. now apply in_map. }
  change (delete_all (d :: ds) m)
    with (delete_all ds (Map_delete (fst d) m)).
  lia.
Qed.
End MapFacts.

Lemma Map_ok_unique {V : Type} (m : Map V) (a b : string * V) :
  Map_ok m -> In a m -> In b m -> fst a = fst b -> a = b.
Proof.
  unfold Map_ok. induction m as [|c m IH]; simpl; [tauto|].
  intros H. inversion H as [|? ? Hn Hm]; subst.
  intros [->|Ha] [->|Hb] E; trivial.
  - exfalso. apply Hn. rewrite E. now apply in_map.
  - exfalso. apply Hn. rewrite <- E. now apply in_map.
  - now apply IH.
Qed.

(** ** cleanup *)

Lemma cleanup_within (l : Logger) :
  Map_size (logs l) <= maxLogs l -> cleanup l = l.
Proof.
  intros H. unfold cleanup.
  destruct (Nat.ltb_spec (maxLogs l) (Map_size (logs l))); [lia | reflexivity].
Qed.

Lemma cleanup_over (l : Logger) :
  maxLogs l < Map_size (logs l) ->
  cleanup l
  = with_logs l
      (delete_all
         (firstn (Map_size (logs l) - maxLogs l) (sort by_timestamp (logs l)))
         (logs l)).
Proof.
  intros H. unfold cleanup.
  destruct (Nat.ltb_spec (maxLogs l) (Map_size (logs l))); [|lia].
  now rewrite length_sort.
Qed.

(** What [cleanup] leaves: a store within the bound whose records are
    records it had, each evicted record going before each kept one. *)
Lemma cleanup_spec (l : Logger) :
  Map_ok (logs l) ->
  Map_ok (logs (cleanup l))
  /\ Map_size (logs (cleanup l)) = Nat.min (Map_size (logs l)) (maxLogs l)
  /\ maxLogs (cleanup l) = maxLogs l
  /\ file (cleanup l) = file l
  /\ (forall b, In b (logs (cleanup l)) -> In b (logs l))
  /\ (forall a b, In a (logs l) -> ~ In a (logs (cleanup l)) ->
                  In b (logs (cleanup l)) -> older (logs l) a b).
Proof.
  intros Hok.
  destruct (Nat.le_gt_cases (Map_size (logs l)) (maxLogs l)) as [H|H].
  { rewrite (cleanup_within l H). repeat split; trivial; try tauto.
    symmetry. now apply Nat.min_l. }
  rewrite (cleanup_over l H).
  set (es := logs l) in *.
  set (sorted := sort by_timestamp es).
  set (k := Map_size es - maxLogs l).
  pose proof (sort_perm by_timestamp es) as P. fold sorted in P.
  assert (Hk : k <= List.length sorted)
    by (unfold sorted; rewrite length_sort; unfold k, Map_size; lia).
  assert (Hin : forall d, In d (firstn k sorted) -> In d es).
  { intros d Hd. apply (Permutation_in _ P).
    rewrite <- (firstn_skipn k sorted). apply in_or_app. now left. }
  assert (Hnd : NoDup (map fst (firstn k sorted))).
  { assert (N : NoDup (map fst sorted)).
    { eapply Permutation_NoDup; [|exact Hok].
      apply Permutation_map. now symmetry. }
    rewrite <- (firstn_skipn k sorted), map_app in N.
    now apply NoDup_app_remove_r in N. }
  cbn [logs maxLogs file with_logs].
  split; [now apply Map_ok_delete_all|].
  split.
  { pose proof (length_delete_all (firstn k sorted) es Hnd) as L.
    rewrite firstn_length_le in L by exact Hk.
    unfold Map_size in *. rewrite Nat.min_r by lia.
    specialize (L (fun d Hd => in_map fst _ _ (Hin d Hd))).
    unfold k in *. lia. }
  split; [reflexivity|]. split; [reflexivity|].
  split; [intros b; apply In_delete_all|].
  intros a b Ha Hna Hb.
  pose proof (sort_older es) as S. fold sorted in S.
  rewrite <- (firstn_skipn k sorted) in S.
  apply (StronglySorted_app _ _ _ S).
  - destruct (in_dec string_dec (fst a) (map fst (firstn k sorted))) as [i|n].
    + apply in_map_iff in i. destruct i as (a' & E & Ha').
      now rewrite <- (Map_ok_unique es a' a Hok (Hin a' Ha') Ha E).
    + exfalso. apply Hna. now apply delete_all_keeps.
  - pose proof (delete_all_key _ _ _ Hok Hb) as Hn.
    apply In_delete_all in Hb.
    apply (Permutation_in _ (Permutation_sym P)) in Hb.
    rewrite <- (firstn_skipn k sorted) in Hb.
    apply in_app_or in Hb. destruct Hb as [Hb|Hb]; trivial.
    exfalso. apply Hn. now apply in_map.
Qed.

(** ** The methods *)

Lemma logs_writeToFile (env : Env) (e : RequestLogEntry) (l : Logger) :
  logs (writeToFile env e l) = logs l
  /\ maxLogs (writeToFile env e l) = maxLogs l.
Proof.
  unfold writeToFile, appendFileSync.
  destruct (JSON_stringify (entry_value e)); simpl;
    try destruct (appendFileSync_ok env); simpl; auto.
Qed.

Lemma file_writeToFile (env : Env) (e : RequestLogEntry) (l : Logger) :
  file (writeToFile env e l)
  = (file l ++ (if writes env e then [e] else []))%list.
Proof.
  unfold writeToFile, appendFileSync, writes.
  destruct (JSON_stringify (entry_value e)); simpl;
    try destruct (appendFileSync_ok env); simpl; now rewrite ?app_nil_r.
Qed.

Lemma keys_update (id : string) (e e' : RequestLogEntry) (l : Logger) :
  Map_get id (logs l) = Some e ->
  map fst (logs (update id e' l)) = map fst (logs l)
  /\ maxLogs (update id e' l) = maxLogs l.
Proof.
  intros H. unfold update. cbn [logs maxLogs with_logs].
  now rewrite keys_Map_set, H.
Qed.

(** A call that finds no record under its id returns the logger it was
    given. *)
Lemma mutate_absent (env : Env) (id : string) (m : mutation) (l : Logger) :
  Map_get id (logs l) = None -> mutate env id m l = Normal l.
Proof.
  intros H. destruct m; simpl;
    unfold logRouting, logTransformedRequest, logProviderResponse,
      logResponse, logError;
    rewrite H; try destruct (logging_disabled env); reflexivity.
Qed.

(** No stage-mutating call changes the keys of the store or its bound. *)
Lemma mutate_keys (env : Env) (id : string) (m : mutation) (l l' : Logger) :
  mutate env id m l = Normal l' ->
  map fst (logs l') = map fst (logs l) /\ maxLogs l' = maxLogs l.
Proof.
  destruct (Map_get id (logs l)) as [e|] eqn:G.
  2: { rewrite (mutate_absent env id m l G). intros [= <-]. auto. }
  destruct m as [n model reason|u me h b p|st h b t|st h b t|err]; simpl;
    unfold logRouting, logTransformedRequest, logProviderResponse,
      logResponse, logError;
    rewrite G;
    try match goal with
        | |- context [logging_disabled env] => destruct (logging_disabled env)
        end;
    try solve [intros [= <-]; auto];
    try solve [intros [= <-]; apply (keys_update id e); exact G].
  - intros [= <-].
    match goal with
    | |- context [writeToFile ?v ?x ?y] =>
        destruct (logs_writeToFile v x y) as [-> ->]
    end.
    apply (keys_update id e). exact G.
  - destruct (GetV err "message"); simpl; [|discriminate].
    destruct (GetV err "stack"); simpl; [|discriminate].
    intros [= <-].
    match goal with
    | |- context [writeToFile ?v ?x ?y] =>
        destruct (logs_writeToFile v x y) as [-> ->]
    end.
    apply (keys_update id e). exact G.
Qed.

(** What one create does to a well-formed store within its bound. *)
Lemma logRequest_spec (env : Env) (id : string) (req : IncomingRequest)
  (l : Logger) :
  Map_ok (logs l) -> Map_size (logs l) <= maxLogs l ->
  let entries :=
    if logging_disabled env then logs l
    else Map_set id (new_entry env id req) (logs l) in
  let l' := logRequest env id req l in
  Map_ok (logs l')
  /\ Map_size (logs l') = Nat.min (Map_size entries) (maxLogs l)
  /\ maxLogs l' = maxLogs l
  /\ (forall b, In b (logs l') -> In b entries)
  /\ (forall a b, In a entries -> ~ In a (logs l') -> In b (logs l') ->
                  older entries a b).
Proof.
  intros Hok Hsz. unfold logRequest.
  destruct (logging_disabled env); cbv zeta.
  - repeat split; trivial; try tauto. symmetry. now apply Nat.min_l.
  - set (l1 := with_logs l (Map_set id (new_entry env id req) (logs l))).
    assert (Hok1 : Map_ok (logs l1)) by (apply Map_ok_set; exact Hok).
    destruct (cleanup_spec l1 Hok1) as (H1 & H2 & H3 & _ & H5 & H6).
    repeat split; trivial.
Qed.

(** Every logger the module's logger can become is well formed and within
    its bound of 1000. *)
Lemma after_invariant (calls : list call) :
  Map_ok (logs (after calls))
  /\ Map_size (logs (after calls)) <= 1000
  /\ maxLogs (after calls) = 1000.
Proof.
  unfold after.
  assert (G : forall l,
             Map_ok (logs l) /\ Map_size (logs l) <= 1000 /\ maxLogs l = 1000 ->
             Map_ok (logs (fold_left exec calls l))
             /\ Map_size (logs (fold_left exec calls l)) <= 1000
             /\ maxLogs (fold_left exec calls l) = 1000).
  { induction calls as [|c calls IH]; simpl; trivial.
    intros l (H1 & H2 & H3). apply IH.
    destruct c as [env id req | env id m]; simpl.
    - rewrite <- H3 in H2.
      destruct (logRequest_spec env id req l H1 H2) as (A & B & C & _).
      cbv zeta in B. rewrite B, C, H3. repeat split; trivial.
      apply Nat.le_min_r.
    - destruct (mutate env id m l) as [l'|] eqn:E; [|now auto].
      destruct (mutate_keys _ _ _ _ _ E) as [K M].
      unfold Map_ok, Map_size in *.
      rewrite <- (length_map fst), K, (length_map fst), M. auto. }
  apply G. simpl. repeat split; [constructor | lia].
Qed.

(** ** The claims *)

(** C4.  Whatever calls came before, after a create the store of the
    module's logger holds at most 1000 records: all the records it had
    with the new one, cut down to 1000.  The records it keeps are records
    it had, unchanged, and every evicted record is older than every kept
    one: its timestamp is earlier, or it is the same and the record was
    inserted earlier.  Whether a record was completed plays no part. *)
Theorem store_bounded_oldest_first (calls : list call) (env : Env)
  (id : string) (req : IncomingRequest) :
  let l := after calls in
  let entries :=
    if logging_disabled env then logs l
    else Map_set id (new_entry env id req) (logs l) in
  let l' := logRequest env id req l in
  Map_size (logs l') <= 1000
  /\ Map_size (logs l') = Nat.min (Map_size entries) 1000
  /\ (forall b, In b (logs l') -> In b entries)
  /\ (forall a b, In a entries -> ~ In a (logs l') -> In b (logs l') ->
                  older entries a b).
Proof.
  destruct (after_invariant calls) as (H1 & H2 & H3).
  rewrite <- H3 in H2.
  destruct (logRequest_spec env id req (after calls) H1 H2)
    as (A & B & C & D & E).
  cbv zeta in *. rewrite H3 in B.
  split; [rewrite B; apply Nat.le_min_r|].
  split; [exact B|]. split; [exact D | exact E].
Qed.

(** C5.  A stage-mutating call on an id the store does not hold returns
    normally and returns the logger it was given: the same store, the same
    file. *)
Theorem mutate_unknown_id (env : Env) (id : string) (m : mutation)
  (l : Logger) :
  getLogById id l = None -> mutate env id m l = Normal l.
Proof. apply mutate_absent. Qed.

Lemma mutate_unknown_id_witness :
  mutate env0 "req_9" (SetError VUndefined) requestLogger
  = Normal requestLogger
  /\ mutate env0 "req_9" (SetResponse 200 (VObj []) (VStr "ok") 0)
       (logRequest env0 "req_1" post_messages requestLogger)
     = Normal (logRequest env0 "req_1" post_messages requestLogger).
Proof.
  split.
  - apply (mutate_unknown_id env0 "req_9" (SetError VUndefined) requestLogger).
    reflexivity.
  - apply (mutate_unknown_id env0 "req_9"
             (SetResponse 200 (VObj []) (VStr "ok") 0)
             (logRequest env0 "req_1" post_messages requestLogger)).
    reflexivity.
Defined.

(** On a stored id the same [logError] throws: the call of C5 returns
    because it stops at the missing record. *)
Example logError_known_id_throws :
  mutate env0 "req_1" (SetError VUndefined)
    (logRequest env0 "req_1" post_messages requestLogger)
  = Throw "TypeError: Cannot read properties".
Proof. reflexivity. Qed.




(** C2, as amended.  A completing call on a stored id, whose arguments
    can be read ([logError] throws on an error that is [undefined] or
    [null]), returns; it puts the record with the stage it sets in the
    place of the stored one, leaves the other records alone, and hands
    the updated record to [writeToFile]: when its serialization and the
    append succeed, exactly one line holding the updated record is added
    to the file, whether or not the record was written before; when
    either fails nothing is added. *)
Theorem completing_call_appends (env : Env) (id : string) (m : mutation)
  (l : Logger) (e e' : RequestLogEntry) :
  completing m = true ->
  getLogById id l = Some e ->
  stage env m e = Normal e' ->
  exists l' : Logger,
    mutate env id m l = Normal l'
    /\ getLogById id l' = Some e'
    /\ (forall k, k <> id -> getLogById k l' = getLogById k l)
    /\ completed e'
    /\ file l' = (file l ++ (if writes env e' then [e'] else []))%list.
Proof.
  unfold getLogById, completed. intros Hc He.
  destruct m as [n model reason|u me h b p|st h b t|st h b t|err];
    try discriminate; simpl; unfold logResponse, logError; rewrite He.
  - intros [= <-]. eexists. split; [reflexivity|].
    match goal with
    | |- context [writeToFile env ?x ?y] =>
        destruct (logs_writeToFile env x y) as [-> _];
        rewrite (file_writeToFile env x y)
    end.
    cbn [logs file update with_logs response set_response].
    split; [apply Map_get_set_same|].
    split; [intros k Hk; now apply Map_get_set_other|].
    split; [left; discriminate | reflexivity].
  - destruct (GetV err "message"); simpl; [|discriminate].
    destruct (GetV err "stack"); simpl; [|discriminate].
    intros [= <-]. eexists. split; [reflexivity|].
    match goal with
    | |- context [writeToFile env ?x ?y] =>
        destruct (logs_writeToFile env x y) as [-> _];
        rewrite (file_writeToFile env x y)
    end.
    cbn [logs file update with_logs error set_error].
    split; [apply Map_get_set_same|].
    split; [intros k Hk; now apply Map_get_set_other|].
    split; [right; discriminate | reflexivity].
Qed.

Lemma completing_call_appends_witness :
  exists l' : Logger,
    mutate env2 "req_1" (SetError (VObj [("message", VStr "boom")]))
      (logResponse env1 "req_1" 200 (VObj []) (VStr "ok") 0
         (logRequest env0 "req_1" post_messages requestLogger))
    = Normal l'
    /\ List.length (file l') = 2.
Proof.
  destruct (completing_call_appends env2 "req_1"
              (SetError (VObj [("message", VStr "boom")]))
              (logResponse env1 "req_1" 200 (VObj []) (VStr "ok") 0
                 (logRequest env0 "req_1" post_messages requestLogger))
              (set_response
                 {| status := 200; sr_headers := VObj [];
                    sr_body := VStr "ok"; duration := 2000 |}
                 (new_entry env0 "req_1" post_messages))
              (set_error {| message := VStr "boom"; stack := VUndefined |}
                 (set_response
                    {| status := 200; sr_headers := VObj [];
                       sr_body := VStr "ok"; duration := 2000 |}
                    (new_entry env0 "req_1" post_messages)))
              eq_refl eq_refl eq_refl)
    as (l' & M & _ & _ & _ & F).
  exists l'. split; [exact M|]. rewrite F. reflexivity.
Defined.

(** C2 as stated fails: a response followed by an error on one id leaves
    two lines in the file. *)
Lemma completing_twice_writes_twice : ~ persists_exactly_once.
Proof.
  intros H.
  specialize
    (H (logRequest env0 "req_1" post_messages requestLogger)
       (match
           mutate_all "req_1"
             [(env1, SetResponse 200 (VObj []) (VStr "ok") 0);
              (env2, SetError (VObj [("message", VStr "boom")]))]
             (logRequest env0 "req_1" post_messages requestLogger)
         with
         | Normal l' => l'
         | Throw _ => requestLogger
         end)
       "req_1"
       [(env1, SetResponse 200 (VObj []) (VStr "ok") 0);
        (env2, SetError (VObj [("message", VStr "boom")]))]).
  assert (E : 2 = 1); [|discriminate E].
  apply H; try reflexivity; discriminate.
Qed.

(** ** Evictions at work, on a logger that holds two records *)

(** The oldest of three goes. *)
Example evicts_oldest :
  map fst (logs (logRequest env2 "c" post_messages
                   (logRequest env1 "b" post_messages
                      (logRequest env0 "a" post_messages small_logger))))
  = ["b"; "c"].
Proof. reflexivity. Qed.

(** Of two records with the same timestamp the one inserted first goes. *)
Example evicts_first_inserted_on_tie :
  map fst (logs (logRequest env2 "c" post_messages
                   (logRequest env1 "b" post_messages
                      (logRequest env1 "a" post_messages small_logger))))
  = ["b"; "c"].
Proof. reflexivity. Qed.

(** A record created with the earliest timestamp goes at once. *)
Example evicts_new_record_when_oldest :
  map fst (logs (logRequest env0 "c" post_messages
                   (logRequest env2 "b" post_messages
                      (logRequest env1 "a" post_messages small_logger))))
  = ["a"; "b"].
Proof. reflexivity. Qed.

(** A completed record goes like any other. *)
Example evicts_completed_record :
  map fst (logs (logRequest env2 "c" post_messages
                   (logRequest env1 "b" post_messages
                      (logResponse env1 "a" 200 (VObj []) (VStr "ok") 0
                         (logRequest env0 "a" post_messages small_logger)))))
  = ["b"; "c"].
Proof. reflexivity. Qed.

End Store.

(* ================================================================== *)
(** * The interceptor                                                  *)
(* ================================================================== *)

Module Interceptor.
Import JS RequestLogger HTTPInterceptor Run Notions.

Section Platform.
Variable URL_hostname : string -> completion string.
Variable JSON_parse : string -> completion value.

Lemma req_end_no_id (env : Env) (chunk : option string) (req : ClientRequest)
  (l : Logger) :
  requestId (interceptedReq req) = None ->
  snd (req_end JSON_parse env chunk req l) = l.
Proof. intros H. unfold req_end. cbn. now rewrite H. Qed.

Lemma req_end_hands_on (env : Env) (chunk : option string)
  (req : ClientRequest) (l : Logger) :
  ended (fst (req_end JSON_parse env chunk req l)) = true
  /\ handed_on (fst (req_end JSON_parse env chunk req l))
     = (handed_on req ++ [chunk])%list
  /\ body (fst (req_end JSON_parse env chunk req l))
     = append_chunk (body req) chunk.
Proof. unfold req_end. cbn. auto. Qed.

Lemma req_end_throw (env : Env) (chunk : option string) (req : ClientRequest)
  (l : Logger) (err : string) :
  parse_or_null JSON_parse (append_chunk (body req) chunk) = Throw err ->
  snd (req_end JSON_parse env chunk req l)
  = match requestId (interceptedReq req) with
    | Some _ => console_warn "Failed to log transformed request:" l
    | None => l
    end.
Proof.
  intros H. unfold req_end. cbn.
  destruct (requestId (interceptedReq req)); trivial.
  now rewrite H.
Qed.

Lemma on_end_throw (env : Env) (res : IncomingMessage)
  (i : InterceptedRequest) (text : string) (l : Logger) (err : string) :
  parse_or_null JSON_parse text = Throw err ->
  on_end JSON_parse env res i text l
  = match requestId i with
    | Some _ => console_warn "Failed to log provider response:" l
    | None => l
    end.
Proof.
  intros H. unfold on_end.
  destruct (requestId i); trivial.
  now rewrite H.
Qed.

(** C7, as amended.  When the accumulated body of an intercepted call
    is not empty and [JSON.parse] throws on it, the interceptor records
    nothing for that stage: the store and the file are as before, and a
    warning is written when an id was attached.  The call itself goes
    on: [req.end] hands the chunk on to the original [end]. *)
Theorem parse_failure_drops_capture (env : Env) (l : Logger)
  (text err : string) :
  parse_or_null JSON_parse text = Throw err ->
  (forall (chunk : option string) (req : ClientRequest),
      append_chunk (body req) chunk = text ->
      let '(req', l') := req_end JSON_parse env chunk req l in
      logs l' = logs l /\ file l' = file l
      /\ (requestId (interceptedReq req) <> None ->
          console l'
          = (console l ++ ["Failed to log transformed request:"])%list)
      /\ ended req' = true
      /\ handed_on req' = (handed_on req ++ [chunk])%list)
  /\ (forall (res : IncomingMessage) (i : InterceptedRequest),
        let l' := on_end JSON_parse env res i text l in
        logs l' = logs l /\ file l' = file l
        /\ (requestId i <> None ->
            console l'
            = (console l ++ ["Failed to log provider response:"])%list)).
Proof.
  intros H. split.
  - intros chunk req E. rewrite <- E in H.
    pose proof (req_end_throw env chunk req l err H) as T.
    destruct (req_end_hands_on env chunk req l) as (A & B & _).
    destruct (req_end JSON_parse env chunk req l) as [req' l'].
    cbn [fst snd] in *. subst l'.
    destruct (requestId (interceptedReq req)); cbn; repeat split; trivial;
      congruence.
  - intros res i. cbv zeta. rewrite (on_end_throw env res i text l err H).
    destruct (requestId i); cbn; repeat split; trivial; congruence.
Qed.
End Platform.

(** A request body and a response body in server-sent-event form, with
    the reference parser. *)
Lemma parse_failure_drops_capture_witness :
  logs (snd (req_end parse_json env1 (Some "not json")
               {| interceptedReq :=
                    {| requestId := Some "req_a"; startTime := 1000;
                       ir_url := "https://api.anthropic.com/v1/messages";
                       ir_method := "POST"; ir_headers := VObj [];
                       ir_body := None; provider := "anthropic" |};
                  body := ""; handed_on := []; ended := false |}
               (logger two_requests)))
  = logs (logger two_requests)
  /\ logs (on_end parse_json env2
             {| statusCode := 200; res_headers := VObj [] |}
             {| requestId := Some "req_a"; startTime := 1000;
                ir_url := "https://api.anthropic.com/v1/messages";
                ir_method := "POST"; ir_headers := VObj [];
                ir_body := None; provider := "anthropic" |}
             "data: {}" (logger two_requests))
     = logs (logger two_requests).
Proof.
  split.
  - exact (proj1 (proj1 (parse_failure_drops_capture parse_json env1
                           (logger two_requests) "not json"
                           "SyntaxError: Unexpected token" eq_refl)
                    (Some "not json")
                    {| interceptedReq :=
                         {| requestId := Some "req_a"; startTime := 1000;
                            ir_url := "https://api.anthropic.com/v1/messages";
                            ir_method := "POST"; ir_headers := VObj [];
                            ir_body := None; provider := "anthropic" |};
                       body := ""; handed_on := []; ended := false |}
                    eq_refl)).
  - exact (proj1 (proj2 (parse_failure_drops_capture parse_json env2
                           (logger two_requests) "data: {}"
                           "SyntaxError: Unexpected token" eq_refl)
                    {| statusCode := 200; res_headers := VObj [] |}
                    {| requestId := Some "req_a"; startTime := 1000;
                       ir_url := "https://api.anthropic.com/v1/messages";
                       ir_method := "POST"; ir_headers := VObj [];
                       ir_body := None; provider := "anthropic" |})).
Defined.

(** C7 as stated fails: after a request body that is not JSON the record
    has no [transformedRequest] stage at all. *)
Lemma parse_failure_stores_nothing : ~ raw_text_fallback parse_json.
Proof.
  intros H.
  destruct (H env1 (logger two_requests) "req_a" "not json"
              (new_entry env0 "req_a" post_messages)
              "SyntaxError: Unexpected token" eq_refl eq_refl eq_refl)
    as [R _].
  specialize (R (Some "not json")
                {| interceptedReq :=
                     {| requestId := Some "req_a"; startTime := 1000;
                        ir_url := "https://api.anthropic.com/v1/messages";
                        ir_method := "POST"; ir_headers := VObj [];
                        ir_body := None; provider := "anthropic" |};
                   body := ""; handed_on := []; ended := false |}
                eq_refl eq_refl).
  discriminate R.
Qed.

(** A body that is JSON is stored parsed, an empty one as [null]. *)
Example valid_body_is_recorded :
  transformed_body "req_a"
    (snd (req_end parse_json env1 (Some "[1, true]")
            {| interceptedReq :=
                 {| requestId := Some "req_a"; startTime := 1000;
                    ir_url := "https://api.anthropic.com/v1/messages";
                    ir_method := "POST"; ir_headers := VObj [];
                    ir_body := None; provider := "anthropic" |};
               body := ""; handed_on := []; ended := false |}
            (logger two_requests)))
  = Some (VArr [VNum 1; VBool true])
  /\ transformed_body "req_a"
       (snd (req_end parse_json env1 None
               {| interceptedReq :=
                    {| requestId := Some "req_a"; startTime := 1000;
                       ir_url := "https://api.anthropic.com/v1/messages";
                       ir_method := "POST"; ir_headers := VObj [];
                       ir_body := None; provider := "anthropic" |};
                  body := ""; handed_on := []; ended := false |}
               (logger two_requests)))
     = Some VNull.
Proof. split; reflexivity. Qed.

End Interceptor.

(* ================================================================== *)
(** * Correlation                                                      *)
(* ================================================================== *)

Module Correlation.
Import JS RequestLogger HTTPInterceptor Run Notions.

Section Platform.
Variable URL_hostname : string -> completion string.
Variable JSON_parse : string -> completion value.

Lemma run_app (s : System) (t1 t2 : list event) :
  run URL_hostname JSON_parse s (t1 ++ t2)%list
= run URL_hostname JSON_parse (run URL_hostname JSON_parse s t1) t2.
Proof. apply fold_left_app. Qed.




(** The hook arms the slot with the id of its request. *)
Lemma global_preHandler (env : Env) (req : Request) (id : string) (g : Global) :
  tracked req = true -> truthy_id req = Some id ->
  snd (preHandler env req g) = {| currentRequestId := Some id |}.
Proof. intros T I. unfold preHandler. now rewrite T, I. Qed.

(** A provider call made while [id] is in the slot is attributed to
    [id], whoever caused it. *)
Lemma step_call_armed (s : System) (id cause : string) (env : Env)
  (isHttps : bool) (options : string + RequestOptions)
  (chunk : option string) :
  global s = {| currentRequestId := Some id |} ->
  truthy (VStr id) = true ->
  isProviderRequest URL_hostname (parseUrl options isHttps) = true ->
  exists req : ClientRequest,
    createInterceptor URL_hostname isHttps env (global s) options
    = Intercepted req
    /\ requestId (interceptedReq req) = Some id
    /\ step URL_hostname JSON_parse s
       (HttpRequest cause env isHttps options chunk)
       = {| global := global s;
            logger := snd (req_end JSON_parse env chunk req (logger s));
            attributed := (attributed s ++ [(cause, Some id)])%list |}.
Proof.
  intros G T P. unfold step, createInterceptor.
  rewrite P, G. cbn [negb getCurrentRequestId currentRequestId].
  rewrite T. eexists. split; [reflexivity|]. split; reflexivity.
Qed.



(** Requests served one after the other are told apart. *)
Lemma unit_of_work_isolated (s : System) (env : Env) (id : string)
  (options : string + RequestOptions) (chunk : option string)
  (reply : Reply) (payload : value) :
  truthy (VStr id) = true ->
  isolated s ->
  isolated (run URL_hostname JSON_parse s
            (unit_of_work env id options chunk reply payload)).
Proof.
  intros T Is. unfold unit_of_work.
  set (req := {| rq_url := "/v1/messages"; rq_requestId := Some id;
                 rq_startTime := None |}).
  assert (I : truthy_id req = Some id).
  { unfold truthy_id, req. cbn [rq_requestId]. now rewrite T. }
  set (s1 := step URL_hostname JSON_parse s (PreHandler env req)).
  assert (G : global s1 = {| currentRequestId := Some id |})
    by (apply (global_preHandler env req id (global s) eq_refl I)).
  assert (I1 : isolated s1) by exact Is.
  assert (I2 : isolated (step URL_hostname JSON_parse s1
                         (HttpRequest id env true options chunk))).
  { destruct (isProviderRequest URL_hostname (parseUrl options true)) eqn:P.
    - destruct (step_call_armed s1 id id env true options chunk G T P)
        as (call & _ & _ & ->).
      intros c o Hin. cbn in Hin. apply in_app_or in Hin.
      destruct Hin as [Hin|[[= <- <-]|[]]]; [now apply I1 | reflexivity].
    - unfold Run.step, createInterceptor. rewrite P. exact I1. }
  exact I2.
Qed.
(** Requests that do not overlap are never mixed up. *)
Lemma serial_isolated (s : System) (ws : list work) :
  Forall (fun w => truthy (VStr (w_id w)) = true) ws ->
  isolated s ->
  isolated (run URL_hostname JSON_parse s (serial ws)).
Proof.
  intros H. revert s. induction H as [|w ws Hw _ IH]; intros s Is; trivial.
  unfold serial. cbn [flat_map]. rewrite run_app.
  apply IH. now apply unit_of_work_isolated.
Qed.
End Platform.



(** In that run the body sent for the first request ends up in the record
    of the second, whose own body overwrites it later; the record of the
    first gets no [transformedRequest] stage. *)
Example cross_attribution_in_the_store :
  let req id := {| rq_url := "/v1/messages"; rq_requestId := Some id;
                   rq_startTime := None |} in
  let s := run hostname_of parse_json two_requests
             [PreHandler env1 (req "req_a"); PreHandler env1 (req "req_b");
              HttpRequest "req_a" env1 true anthropic (Some "{}")] in
  transformed_body "req_b" (logger s) = Some (VObj [])
  /\ transformed_body "req_a" (logger s) = None.
Proof. split; reflexivity. Qed.

End Correlation.

(* ================================================================== *)
(** * Reading the store                                                *)
(* ================================================================== *)

Module Queries.
Import JS RequestLogger Notions Store.

(** ** A stable sort, for any comparator that is an order *)
Section StableSort.
Context {A : Type} (compareFn : A -> A -> comparison).
Hypothesis anti : forall a b, compareFn a b = CompOpp (compareFn b a).
Hypothesis trans :
  forall a b c, compareFn a b <> Gt -> compareFn b c <> Gt ->
                compareFn a c <> Gt.

Lemma before_cons (x a b : A) (l : list A) :
  before compareFn l a b -> before compareFn (x :: l) a b.
Proof.
  intros [H|[H1 H2]]; [now left | right]. split; trivial.
  now apply precedes_cons.
Qed.

Lemma sort_before (l : list A) :
  StronglySorted (before compareFn l) (sort compareFn l).
Proof.
  induction l as [|x l IH]; simpl; [constructor|].
  assert (S : StronglySorted (before compareFn (x :: l)) (sort compareFn l)).
  { clear -IH. induction IH as [|y s Hs IHs Hy]; constructor; trivial.
    eapply Forall_impl; [|exact Hy]. intros z. apply before_cons. }
  apply insert_sorted; trivial.
  - intros y Hy E. left. rewrite anti, E. reflexivity.
  - intros y z Hy E Hz Hin.
    assert (Hz' : In z l)
      by (apply (Permutation_in _ (sort_perm compareFn l)); exact Hin).
    assert (L : compareFn x z <> Gt).
    { destruct Hz as [->|[Hz|[Hz _]]]; trivial;
        apply (trans x y z); trivial; congruence. }
    destruct (compareFn x z) eqn:C; [right|now left|congruence].
    split; trivial. now apply precedes_head.
Qed.
End StableSort.

Lemma newest_first_anti (a b : RequestLogEntry) :
  newest_first a b = CompOpp (newest_first b a).
Proof. unfold newest_first, localeCompare. apply String.compare_antisym. Qed.

Lemma newest_first_trans (a b c : RequestLogEntry) :
  newest_first a b <> Gt -> newest_first b c <> Gt -> newest_first a c <> Gt.
Proof.
  unfold newest_first, localeCompare. intros H1 H2.
  now apply (compare_trans _ (timestamp b)).
Qed.

Lemma StronglySorted_firstn {A : Type} (R : A -> A -> Prop) (n : nat)
  (l : list A) :
  StronglySorted R l -> StronglySorted R (firstn n l).
Proof.
  intros H. revert n. induction H as [|x l Hl IH Hx]; intros [|n]; simpl;
    try constructor; auto.
  rewrite Forall_forall in *. intros y Hy. apply Hx.
  rewrite <- (firstn_skipn n l). apply in_or_app. now left.
Qed.

Lemma length_getRecentLogs (limit : Z) (l : Logger) :
  List.length (getRecentLogs limit l)
  = if (limit <? 0)%Z
    then Map_size (logs l) - Z.to_nat (- limit)
    else Nat.min (Z.to_nat limit) (Map_size (logs l)).
Proof.
  unfold getRecentLogs, slice0, Map_size.
  destruct (limit <? 0)%Z; rewrite length_firstn, length_sort, length_map; lia.
Qed.

(** X1.  For a limit that is not negative, [getRecentLogs] returns the
    first [limit] records of the store put in order newest first, records
    with the same timestamp in insertion order: as many as the limit
    allows, each of them a stored record. *)
Theorem getRecentLogs_newest_first (limit : Z) (l : Logger) :
  (0 <= limit)%Z ->
  let records := map snd (logs l) in
  let result := getRecentLogs limit l in
  (exists ordered : list RequestLogEntry,
      Permutation ordered records
      /\ StronglySorted (before newest_first records) ordered
      /\ result = firstn (Z.to_nat limit) ordered)
  /\ StronglySorted (before newest_first records) result
  /\ (forall e, In e result -> In e records)
  /\ List.length result = Nat.min (Z.to_nat limit) (Map_size (logs l)).
Proof.
  intros H. cbv zeta.
  assert (E : getRecentLogs limit l
              = firstn (Z.to_nat limit)
                  (sort newest_first (map snd (logs l)))).
  { unfold getRecentLogs, slice0.
    destruct (Z.ltb_spec limit 0); [lia | reflexivity]. }
  pose proof (sort_before newest_first newest_first_anti newest_first_trans
                (map snd (logs l))) as S.
  split; [|split; [|split]].
  - exists (sort newest_first (map snd (logs l))).
    split; [apply sort_perm | split; [exact S | exact E]].
  - rewrite E. now apply StronglySorted_firstn.
  - rewrite E. intros e He.
    apply (Permutation_in _ (sort_perm newest_first (map snd (logs l)))).
    rewrite <- (firstn_skipn (Z.to_nat limit)). apply in_or_app. now left.
  - rewrite length_getRecentLogs.
    destruct (Z.ltb_spec limit 0); [lia | reflexivity].
Qed.

Lemma getRecentLogs_newest_first_witness :
  List.length
    (getRecentLogs 2
       (after [Create env0 "req_1" post_messages;
               Create env2 "req_3" post_messages;
               Create env1 "req_2" post_messages]))
  = Nat.min (Z.to_nat 2)
      (Map_size
         (logs (after [Create env0 "req_1" post_messages;
                       Create env2 "req_3" post_messages;
                       Create env1 "req_2" post_messages]))).
Proof.
  exact (proj2 (proj2 (proj2
           (getRecentLogs_newest_first 2
              (after [Create env0 "req_1" post_messages;
                      Create env2 "req_3" post_messages;
                      Create env1 "req_2" post_messages])
              ltac:(lia))))).
Defined.

(** The two newest of three, newest first. *)
Example two_newest_of_three :
  map id
    (getRecentLogs 2
       (after [Create env0 "req_1" post_messages;
               Create env2 "req_3" post_messages;
               Create env1 "req_2" post_messages]))
  = ["req_3"; "req_2"].
Proof. reflexivity. Qed.

(** X2.  With logging enabled and room in the store for the record, a
    create is found again under its id as the fresh record; every other
    id is found as before and the file is untouched. *)
Theorem create_then_lookup (env : Env) (id : string) (req : IncomingRequest)
  (l : Logger) :
  logging_disabled env = false ->
  Map_size (Map_set id (new_entry env id req) (logs l)) <= maxLogs l ->
  let l' := logRequest env id req l in
  getLogById id l' = Some (new_entry env id req)
  /\ (forall k, k <> id -> getLogById k l' = getLogById k l)
  /\ file l' = file l.
Proof.
  intros Hen Hsz. cbv zeta. unfold logRequest, getLogById. rewrite Hen.
  rewrite cleanup_within by exact Hsz.
  cbn [logs file with_logs]. split; [apply Map_get_set_same|].
  split; [intros k Hk; now apply Map_get_set_other | reflexivity].
Qed.

Lemma create_then_lookup_witness :
  getLogById "req_1" (logRequest env0 "req_1" post_messages requestLogger)
  = Some (new_entry env0 "req_1" post_messages).
Proof.
  apply (create_then_lookup env0 "req_1" post_messages requestLogger).
  - reflexivity.
  - unfold Map_size. simpl. lia.
Defined.

End Queries.

(* ================================================================== *)
(** * What the logger keeps                                            *)
(* ================================================================== *)

Module Records.
Import JS RequestLogger Notions Store Sanitizer.

(** ** One formula for the five stage-mutating calls *)

Lemma mutate_stage (env : Env) (id : string) (m : mutation) (l : Logger) :
  mutate env id m l
  = match Map_get id (logs l) with
    | None => Normal l
    | Some e =>
        if negb (completing m) && logging_disabled env then Normal l
        else
          e' <- stage env m e ;;
          Normal (if completing m
                  then writeToFile env e' (update id e' l)
                  else update id e' l)
    end.
Proof.
  destruct m as [n model reason|u me h b p|st h b t|st h b t|err]; simpl;
    unfold logRouting, logTransformedRequest, logProviderResponse,
      logResponse, logError;
    destruct (Map_get id (logs l)) as [e|];
    try destruct (logging_disabled env); try reflexivity.
  all: destruct (GetV err "message"); simpl; trivial.
  all: destruct (GetV err "stack"); reflexivity.
Qed.

(** What a call that returns has done. *)
Lemma mutate_cases (env : Env) (id : string) (m : mutation) (l l' : Logger) :
  mutate env id m l = Normal l' ->
  l' = l
  \/ exists e e',
       Map_get id (logs l) = Some e
       /\ stage env m e = Normal e'
       /\ logs l' = Map_set id e' (logs l)
       /\ maxLogs l' = maxLogs l
       /\ ((completing m = false /\ file l' = file l
            /\ console l' = console l)
           \/ (completing m = true
               /\ l' = writeToFile env e' (update id e' l))).
Proof.
  rewrite mutate_stage.
  destruct (Map_get id (logs l)) as [e|]; [|intros [= <-]; now left].
  destruct (negb (completing m) && logging_disabled env);
    [intros [= <-]; now left|].
  destruct (stage env m e) as [e'|] eqn:S; simpl; [|discriminate].
  intros [= <-]. right. exists e, e'. split; trivial. split; trivial.
  destruct (completing m).
  - destruct (logs_writeToFile env e' (update id e' l)) as [-> ->].
    cbn [logs maxLogs update with_logs]. repeat split. right. now split.
  - cbn [logs maxLogs file console update with_logs]. repeat split.
    left. repeat split.
Qed.

Lemma In_Map_set {V : Type} (k : string) (v : V) (m : Map V)
  (b : string * V) :
  In b (Map_set k v m) -> In b m \/ b = (k, v).
Proof.
  induction m as [|[k' v'] m IH]; simpl.
  - intros [<-|[]]. now right.
  - destruct (k' =? k) eqn:E.
    + apply String.eqb_eq in E. subst k'. intros [<-|H]; auto.
    + intros [<-|H]; auto. destruct (IH H); auto.
Qed.

Lemma In_cleanup (l : Logger) (b : string * RequestLogEntry) :
  In b (logs (cleanup l)) -> In b (logs l).
Proof.
  unfold cleanup. destruct (maxLogs l <? Map_size (logs l))%nat; trivial.
  apply In_delete_all.
Qed.

Lemma file_cleanup (l : Logger) : file (cleanup l) = file l.
Proof.
  unfold cleanup. now destruct (maxLogs l <? Map_size (logs l))%nat.
Qed.

Lemma In_logRequest (env : Env) (k : string) (req : IncomingRequest)
  (l : Logger) (b : string * RequestLogEntry) :
  In b (logs (logRequest env k req l)) ->
  In b (logs l) \/ b = (k, new_entry env k req).
Proof.
  unfold logRequest. destruct (logging_disabled env); [now left|].
  intros H. apply In_cleanup in H. now apply In_Map_set in H.
Qed.

Lemma file_logRequest (env : Env) (k : string) (req : IncomingRequest)
  (l : Logger) :
  file (logRequest env k req l) = file l.
Proof.
  unfold logRequest. destruct (logging_disabled env); trivial.
  now rewrite file_cleanup.
Qed.

(** Induction over the calls made on the module's logger. *)
Lemma after_ind (P : Logger -> Prop) :
  P requestLogger ->
  (forall l c, P l -> P (exec l c)) ->
  forall calls, P (after calls).
Proof.
  intros H0 Hs calls. unfold after.
  generalize requestLogger H0. induction calls as [|c calls IH]; simpl; auto.
Qed.

Lemma stage_fixed (env : Env) (m : mutation) (e e' : RequestLogEntry) :
  stage env m e = Normal e' ->
  id e' = id e /\ timestamp e' = timestamp e /\ method e' = method e
  /\ url e' = url e /\ originalRequest e' = originalRequest e.
Proof.
  destruct m as [n model reason|u me h b p|st h b t|st h b t|err]; simpl;
    try (intros [= <-]; repeat split; reflexivity).
  destruct (GetV err "message"); simpl; [|discriminate].
  destruct (GetV err "stack"); simpl; [|discriminate].
  intros [= <-]. repeat split; reflexivity.
Qed.

(** ** The properties *)

(** X3.  Every record of the store is kept under its own id, whatever
    calls were made. *)
Theorem stored_under_own_id (calls : list call) (k : string)
  (e : RequestLogEntry) :
  In (k, e) (logs (after calls)) -> id e = k.
Proof.
  revert k e. apply (after_ind (fun l => forall k e, In (k, e) (logs l) ->
                                                     id e = k)).
  - intros k e [].
  - intros l c IH k e H. destruct c as [env i req | env i m]; simpl in H.
    + apply In_logRequest in H. destruct H as [H|[= -> ->]]; auto.
    + destruct (mutate env i m l) as [l'|] eqn:E; [|now apply IH].
      destruct (mutate_cases _ _ _ _ _ E)
        as [->|(e0 & e' & G & S & L & _)]; [now apply IH|].
      rewrite L in H. apply In_Map_set in H.
      destruct H as [H|[= -> ->]]; [now apply IH|].
      destruct (stage_fixed _ _ _ _ S) as [-> _].
      apply IH. now apply Map_get_In.
Qed.

Lemma stored_under_own_id_witness :
  id (new_entry env0 "req_1" post_messages) = "req_1".
Proof.
  apply (stored_under_own_id [Create env0 "req_1" post_messages] "req_1"
           (new_entry env0 "req_1" post_messages)).
  left. reflexivity.
Defined.

(** X4.  A stage-mutating call leaves every other record as it was and
    neither adds, removes nor reorders records; the bound of the store
    stays. *)
Theorem mutate_touches_one_record (env : Env) (id : string) (m : mutation)
  (l l' : Logger) :
  mutate env id m l = Normal l' ->
  (forall k, k <> id -> getLogById k l' = getLogById k l)
  /\ map fst (logs l') = map fst (logs l)
  /\ maxLogs l' = maxLogs l.
Proof.
  intros E. destruct (mutate_keys _ _ _ _ _ E) as [K M].
  split; [|now split]. intros k Hk. unfold getLogById.
  destruct (mutate_cases _ _ _ _ _ E) as [->|(e & e' & _ & _ & L & _)];
    trivial.
  rewrite L. now apply Map_get_set_other.
Qed.

Lemma mutate_touches_one_record_witness :
  getLogById "req_a"
    (logResponse env1 "req_b" 200 (VObj []) (VStr "ok") 0
       (Run.logger two_requests))
  = getLogById "req_a" (Run.logger two_requests).
Proof.
  apply (proj1 (mutate_touches_one_record env1 "req_b"
                  (SetResponse 200 (VObj []) (VStr "ok") 0)
                  (Run.logger two_requests)
                  (logResponse env1 "req_b" 200 (VObj []) (VStr "ok") 0
                     (Run.logger two_requests))
                  eq_refl)).
  discriminate.
Defined.

(** X5.  A stage-mutating call on a stored id changes no field of the
    record but its own stage: id, timestamp, method, url and original
    request stay, and so does every stage the call is not about (a
    response is not removed by a later error, nor the reverse). *)
Theorem mutate_sets_own_stage_only (env : Env) (k : string) (m : mutation)
  (l l' : Logger) (e : RequestLogEntry) :
  mutate env k m l = Normal l' ->
  getLogById k l = Some e ->
  exists e' : RequestLogEntry,
    getLogById k l' = Some e'
    /\ id e' = id e /\ timestamp e' = timestamp e /\ method e' = method e
    /\ url e' = url e /\ originalRequest e' = originalRequest e
    /\ (routing e' = routing e
        \/ exists n model reason, m = SetRouting n model reason)
    /\ (transformedRequest e' = transformedRequest e
        \/ exists u me h b p, m = SetTransformedRequest u me h b p)
    /\ (providerResponse e' = providerResponse e
        \/ exists st h b t, m = SetProviderResponse st h b t)
    /\ (response e' = response e \/ exists st h b t, m = SetResponse st h b t)
    /\ (error e' = error e \/ exists err, m = SetError err).
Proof.
  unfold getLogById. intros E G.
  destruct (mutate_cases _ _ _ _ _ E) as [->|(e0 & e' & G' & S & L & _)].
  { exists e. rewrite G. repeat split; auto. }
  rewrite G in G'. injection G' as <-.
  exists e'. rewrite L, Map_get_set_same.
  destruct (stage_fixed _ _ _ _ S) as (F1 & F2 & F3 & F4 & F5).
  do 6 (split; trivial).
  destruct m as [n model reason|u me h b p|st h b t|st h b t|err];
    simpl in S.
  1-4: injection S as <-; cbn; repeat split; auto;
       solve [right; repeat eexists].
  destruct (GetV err "message"); simpl in S; [|discriminate].
  destruct (GetV err "stack"); simpl in S; [|discriminate].
  injection S as <-. cbn. repeat split; auto. right. now exists err.
Qed.

Lemma mutate_sets_own_stage_only_witness :
  exists e' : RequestLogEntry,
    getLogById "req_1"
      (logRouting env1 "req_1" 42 "claude-3" "default"
         (logRequest env0 "req_1" post_messages requestLogger))
    = Some e'
    /\ id e' = "req_1".
Proof.
  destruct (mutate_sets_own_stage_only env1 "req_1"
              (SetRouting 42 "claude-3" "default")
              (logRequest env0 "req_1" post_messages requestLogger)
              (logRouting env1 "req_1" 42 "claude-3" "default"
                 (logRequest env0 "req_1" post_messages requestLogger))
              (new_entry env0 "req_1" post_messages) eq_refl eq_refl)
    as (e' & G & I & _).
  exists e'. split; [exact G | exact I].
Defined.

(** X6.  While [REQUEST_LOG] is ["false"] at every call, the module's
    logger stays as it was made: nothing is stored, so nothing is ever
    completed or written either. *)
Theorem disabled_logging_stores_nothing (calls : list call) :
  Forall (fun c => logging_disabled (call_env c) = true) calls ->
  after calls = requestLogger.
Proof.
  unfold after. intros H.
  induction H as [|c calls Hc _ IH]; simpl; trivial.
  assert (E : exec requestLogger c = requestLogger); [|now rewrite E].
  destruct c as [env k req | env k m]; simpl in *.
  - unfold logRequest. now rewrite Hc.
  - now rewrite mutate_absent.
Qed.

Lemma disabled_logging_stores_nothing_witness :
  after [Create env_off "req_1" post_messages;
         Mutate env_off "req_1" (SetResponse 200 (VObj []) (VStr "ok") 0)]
  = requestLogger.
Proof.
  apply (disabled_logging_stores_nothing
           [Create env_off "req_1" post_messages;
            Mutate env_off "req_1" (SetResponse 200 (VObj []) (VStr "ok") 0)]).
  repeat constructor.
Defined.

Lemma stage_completed (env : Env) (m : mutation) (e e' : RequestLogEntry) :
  completing m = true -> stage env m e = Normal e' -> completed e'.
Proof.
  destruct m as [n model reason|u me h b p|st h b t|st h b t|err];
    try discriminate; intros _; simpl.
  - intros [= <-]. left. discriminate.
  - destruct (GetV err "message"); simpl; [|discriminate].
    destruct (GetV err "stack"); simpl; [|discriminate].
    intros [= <-]. right. discriminate.
Qed.

(** What one call adds to the file: nothing, or the record a completing
    call has just made. *)
Lemma mutate_file (env : Env) (k : string) (m : mutation) (l l' : Logger) :
  mutate env k m l = Normal l' ->
  file l' = file l
  \/ exists e e',
       completing m = true
       /\ Map_get k (logs l) = Some e
       /\ stage env m e = Normal e'
       /\ file l' = (file l ++ [e'])%list.
Proof.
  intros E.
  destruct (mutate_cases _ _ _ _ _ E)
    as [->|(e & e' & G & S & L & M & [(C & F & _)|(C & ->)])];
    [now left | now left |].
  rewrite file_writeToFile. cbn [file update with_logs].
  destruct (writes env e'); [|left; apply app_nil_r].
  right. now exists e, e'.
Qed.

Lemma exec_file (l : Logger) (c : call) :
  file (exec l c) = file l
  \/ exists env k m e e',
       c = Mutate env k m
       /\ completing m = true
       /\ Map_get k (logs l) = Some e
       /\ stage env m e = Normal e'
       /\ file (exec l c) = (file l ++ [e'])%list.
Proof.
  destruct c as [env k req | env k m]; simpl.
  { left. apply file_logRequest. }
  destruct (mutate env k m l) as [l'|] eqn:E; [|now left].
  destruct (mutate_file _ _ _ _ _ E) as [F|(e & e' & C & G & S & F)];
    [now left | right].
  now exists env, k, m, e, e'.
Qed.

(** X7.  The file only grows, by at most one line for each completing
    call: a create (with the eviction it may cause) and the three other
    stage calls never write. *)
Theorem file_only_grows (l : Logger) (calls : list call) :
  exists lines : list RequestLogEntry,
    file (fold_left exec calls l) = (file l ++ lines)%list
    /\ List.length lines <= List.length (filter is_completing calls).
Proof.
  revert l. induction calls as [|c calls IH]; intros l; simpl.
  { exists []. now rewrite app_nil_r. }
  destruct (IH (exec l c)) as (lines & F & N).
  destruct (exec_file l c) as [E|(env & k & m & e & e' & -> & C & _ & _ & E)].
  - exists lines. rewrite F, E. split; trivial.
    destruct (is_completing c); simpl; lia.
  - exists (e' :: lines). rewrite F, E, <- app_assoc. cbn [is_completing].
    rewrite C. simpl. split; [reflexivity | lia].
Qed.

(** X8.  Every line of the file holds a completed record: one with its
    response or its error stage.  A record that never gets either is
    never written. *)
Theorem written_records_are_completed (calls : list call)
  (e : RequestLogEntry) :
  In e (file (after calls)) -> completed e.
Proof.
  revert e. apply (after_ind (fun l => forall e, In e (file l) -> completed e)).
  - intros e [].
  - intros l c IH e H.
    destruct (exec_file l c)
      as [E|(env & k & m & e0 & e' & -> & C & _ & S & E)];
      rewrite E in H; [now apply IH|].
    apply in_app_or in H. destruct H as [H|[<-|[]]]; [now apply IH|].
    now apply (stage_completed env m e0).
Qed.

Lemma written_records_are_completed_witness :
  completed
    (set_response {| status := 200; sr_headers := sanitizeHeaders (VObj []);
                     sr_body := sanitizeBody (VStr "ok");
                     duration := Date_now env1 - 0 |}
       (new_entry env0 "req_1" post_messages)).
Proof.
  apply (written_records_are_completed
           [Create env0 "req_1" post_messages;
            Mutate env1 "req_1" (SetResponse 200 (VObj []) (VStr "ok") 0)]).
  left. reflexivity.
Defined.

(** ** Secrets *)

Lemma no_secret_sanitizeHeaders (headers : value) :
  no_secret (sanitizeHeaders headers).
Proof.
  unfold no_secret, redacted_or_falsy.
  rewrite sanitizeHeaders_redact. cbn [spread]. split.
  - rewrite get_redact_other by discriminate. rewrite get_redact_same.
    destruct (truthy (get "authorization" (spread headers))) eqn:T; auto.
  - rewrite get_redact_same.
    destruct (truthy (get "x-api-key"
                        (redact "authorization" (spread headers)))) eqn:T;
      auto.
Qed.

Lemma new_entry_no_secret (env : Env) (k : string) (req : IncomingRequest) :
  entry_no_secret (new_entry env k req).
Proof.
  unfold entry_no_secret. cbn. split; [apply no_secret_sanitizeHeaders|].
  split; [|split]; intros ? [=].
Qed.

Lemma stage_no_secret (env : Env) (m : mutation) (e e' : RequestLogEntry) :
  entry_no_secret e -> stage env m e = Normal e' -> entry_no_secret e'.
Proof.
  intros (H0 & H1 & H2 & H3).
  destruct m as [n model reason|u me h b p|st h b t|st h b t|err]; simpl.
  - intros [= <-]. unfold entry_no_secret. cbn. auto.
  - intros [= <-]. unfold entry_no_secret. cbn.
    split; [exact H0|]. split; [|split; assumption].
    intros t [= <-]. apply no_secret_sanitizeHeaders.
  - intros [= <-]. unfold entry_no_secret. cbn.
    split; [exact H0|]. split; [exact H1|]. split; [|exact H3].
    intros r [= <-]. apply no_secret_sanitizeHeaders.
  - intros [= <-]. unfold entry_no_secret. cbn.
    split; [exact H0|]. split; [exact H1|]. split; [exact H2|].
    intros r [= <-]. apply no_secret_sanitizeHeaders.
  - destruct (GetV err "message"); simpl; [|discriminate].
    destruct (GetV err "stack"); simpl; [|discriminate].
    intros [= <-]. unfold entry_no_secret. cbn. auto.
Qed.

(** X9.  In no record of the store and in no line of the file does a
    header map, of any stage, hold under the key [authorization] or
    [x-api-key] anything truthy but the redaction marker. *)
Theorem no_secret_is_kept (calls : list call) :
  (forall k e, In (k, e) (logs (after calls)) -> entry_no_secret e)
  /\ (forall e, In e (file (after calls)) -> entry_no_secret e).
Proof.
  apply (after_ind
           (fun l => (forall k e, In (k, e) (logs l) -> entry_no_secret e)
                     /\ (forall e, In e (file l) -> entry_no_secret e))).
  - split; [intros k e [] | intros e []].
  - intros l c [IL IF].
    assert (S : forall k e, In (k, e) (logs (exec l c)) -> entry_no_secret e).
    { intros k e H. destruct c as [env i req | env i m]; simpl in H.
      - apply In_logRequest in H. destruct H as [H|[= -> ->]];
          [now apply (IL k) | apply new_entry_no_secret].
      - destruct (mutate env i m l) as [l'|] eqn:E; [|now apply (IL k)].
        destruct (mutate_cases _ _ _ _ _ E)
          as [->|(e0 & e' & G & St & L & _)]; [now apply (IL k)|].
        rewrite L in H. apply In_Map_set in H.
        destruct H as [H|[= -> ->]]; [now apply (IL k)|].
        apply (stage_no_secret env m e0); trivial.
        apply (IL i). now apply Map_get_In. }
    split; trivial.
    intros e H.
    destruct (exec_file l c)
      as [E|(env & k & m & e0 & e' & -> & C & G & St & E)];
      rewrite E in H; [now apply IF|].
    apply in_app_or in H. destruct H as [H|[<-|[]]]; [now apply IF|].
    apply (stage_no_secret env m e0); trivial.
    apply (IL k). now apply Map_get_In.
Qed.

(** ** Bodies *)

(** X10.  What [sanitizeBody] returns is bounded: a text has at most 1015
    units, an array or object has a compact serialization of at most
    1000, and anything else is the body itself. *)
Theorem sanitizeBody_is_bounded (body : value) :
  bounded_body (sanitizeBody body)
  /\ (typeof body <> "string" -> typeof body <> "object" ->
      sanitizeBody body = body).
Proof.
  split.
  - destruct (truthy body) eqn:T.
    2: { rewrite (sanitizeBody_not_truthy body T).
         destruct body; try discriminate; simpl; trivial.
         destruct s; [simpl; lia | discriminate]. }
    destruct body as [| |b|n|n|s|items|props]; try discriminate;
      try (unfold sanitizeBody; rewrite T; exact I).
    + destruct (Nat.le_gt_cases (String.length s) threshold) as [H|H].
      * rewrite (sanitizeBody_short s H). simpl. unfold threshold in H. lia.
      * rewrite (sanitizeBody_long s H). simpl.
        rewrite (length_truncate s H). unfold threshold. lia.
    + pose proof (sanitizeBody_structured (VArr items) eq_refl T) as H.
      destruct (JSON_stringify (VArr items)) as [[str|]|] eqn:S;
        try (rewrite H; simpl; lia).
      destruct (Nat.ltb_spec threshold (String.length str)) as [L|L].
      * destruct H as (pretty & _ & Lp & ->). simpl.
        rewrite (length_truncate pretty Lp). unfold threshold. lia.
      * rewrite H. simpl. exists str. split; [exact S|].
        unfold threshold in L. lia.
    + pose proof (sanitizeBody_structured (VObj props) eq_refl T) as H.
      destruct (JSON_stringify (VObj props)) as [[str|]|] eqn:S;
        try (rewrite H; simpl; lia).
      destruct (Nat.ltb_spec threshold (String.length str)) as [L|L].
      * destruct H as (pretty & _ & Lp & ->). simpl.
        rewrite (length_truncate pretty Lp). unfold threshold. lia.
      * rewrite H. simpl. exists str. split; [exact S|].
        unfold threshold in L. lia.
  - intros Hs Ho. unfold sanitizeBody.
    destruct (negb (truthy body)); trivial.
    destruct body; trivial; simpl in Hs, Ho; congruence.
Qed.

(** ** A write that fails *)

(** X11.  When the append to the file fails, a completing call on a
    stored id still updates the record in the store; the file is as
    before and one line goes to the console. *)
Theorem failed_write_keeps_record (env : Env) (k : string) (m : mutation)
  (l l' : Logger) (e : RequestLogEntry) :
  completing m = true ->
  appendFileSync_ok env = false ->
  getLogById k l = Some e ->
  mutate env k m l = Normal l' ->
  exists e' : RequestLogEntry,
    stage env m e = Normal e'
    /\ getLogById k l' = Some e'
    /\ completed e'
    /\ file l' = file l
    /\ console l' = (console l ++ ["Failed to write request log:"])%list.
Proof.
  unfold getLogById. intros C A G. rewrite mutate_stage, G, C. cbn [negb andb].
  destruct (stage env m e) as [e'|] eqn:S; simpl; [|discriminate].
  intros [= <-]. exists e'. split; trivial.
  destruct (logs_writeToFile env e' (update k e' l)) as [-> _].
  cbn [logs update with_logs]. split; [apply Map_get_set_same|].
  split; [now apply (stage_completed env m e)|].
  unfold writeToFile, appendFileSync. rewrite A.
  destruct (JSON_stringify (entry_value e')); simpl; auto.
Qed.

Lemma failed_write_keeps_record_witness :
  exists e' : RequestLogEntry,
    stage env_disk_full (SetResponse 200 (VObj []) (VStr "ok") 0)
      (new_entry env0 "req_1" post_messages)
    = Normal e'
    /\ getLogById "req_1"
         (logResponse env_disk_full "req_1" 200 (VObj []) (VStr "ok") 0
            (logRequest env0 "req_1" post_messages requestLogger))
       = Some e'
    /\ completed e'
    /\ file (logResponse env_disk_full "req_1" 200 (VObj []) (VStr "ok") 0
               (logRequest env0 "req_1" post_messages requestLogger))
       = file (logRequest env0 "req_1" post_messages requestLogger)
    /\ console (logResponse env_disk_full "req_1" 200 (VObj []) (VStr "ok") 0
                  (logRequest env0 "req_1" post_messages requestLogger))
       = (console (logRequest env0 "req_1" post_messages requestLogger)
          ++ ["Failed to write request log:"])%list.
Proof.
  apply (failed_write_keeps_record env_disk_full "req_1"
           (SetResponse 200 (VObj []) (VStr "ok") 0)
           (logRequest env0 "req_1" post_messages requestLogger)
           (logResponse env_disk_full "req_1" 200 (VObj []) (VStr "ok") 0
              (logRequest env0 "req_1" post_messages requestLogger))
           (new_entry env0 "req_1" post_messages));
    reflexivity.
Defined.

(** X23.  While [REQUEST_LOG] is ["false"], the three calls for the
    routing, transformed-request and provider-response stages leave a
    stored record alone, but the two completing calls are not switched
    off: they still update the record and hand it to [writeToFile]. *)
Theorem toggle_spares_completion (env : Env) (k : string) (m : mutation)
  (l : Logger) (e : RequestLogEntry) :
  logging_disabled env = true ->
  getLogById k l = Some e ->
  (completing m = false -> mutate env k m l = Normal l)
  /\ (completing m = true ->
      forall l', mutate env k m l = Normal l' ->
      exists e' : RequestLogEntry,
        stage env m e = Normal e'
        /\ getLogById k l' = Some e'
        /\ file l' = (file l ++ (if writes env e' then [e'] else []))%list).
Proof.
  unfold getLogById. intros D G. rewrite mutate_stage, G, D. split.
  - now intros ->.
  - intros -> l'. cbn [negb andb].
    destruct (stage env m e) as [e'|] eqn:S; simpl; [|discriminate].
    intros [= <-]. exists e'. split; trivial.
    destruct (logs_writeToFile env e' (update k e' l)) as [-> _].
    rewrite file_writeToFile. cbn [logs file update with_logs].
    split; [apply Map_get_set_same | reflexivity].
Qed.

Lemma toggle_spares_completion_witness :
  mutate env_off "req_1" (SetRouting 42 "claude-3" "default")
    (logRequest env0 "req_1" post_messages requestLogger)
  = Normal (logRequest env0 "req_1" post_messages requestLogger)
  /\ exists e' : RequestLogEntry,
       getLogById "req_1"
         (logResponse env_off "req_1" 200 (VObj []) (VStr "ok") 0
            (logRequest env0 "req_1" post_messages requestLogger))
       = Some e'
       /\ file (logResponse env_off "req_1" 200 (VObj []) (VStr "ok") 0
                  (logRequest env0 "req_1" post_messages requestLogger))
          = [e'].
Proof.
  split.
  - exact (proj1 (toggle_spares_completion env_off "req_1"
                    (SetRouting 42 "claude-3" "default")
                    (logRequest env0 "req_1" post_messages requestLogger)
                    (new_entry env0 "req_1" post_messages) eq_refl eq_refl)
             eq_refl).
  - destruct (proj2 (toggle_spares_completion env_off "req_1"
                       (SetResponse 200 (VObj []) (VStr "ok") 0)
                       (logRequest env0 "req_1" post_messages requestLogger)
                       (new_entry env0 "req_1" post_messages)
                       eq_refl eq_refl)
                eq_refl
                (logResponse env_off "req_1" 200 (VObj []) (VStr "ok") 0
                   (logRequest env0 "req_1" post_messages requestLogger))
                eq_refl)
      as (e' & S & G & F).
    exists e'. injection S as <-. split; [exact G | exact F].
Defined.

End Records.

(* ================================================================== *)
(** * What the interceptor captures                                    *)
(* ================================================================== *)

Module Capture.
Import JS RequestLogger HTTPInterceptor Run Notions Store.

Lemma append_nil_r (a : string) : a ++ "" = a.
Proof. induction a as [|c a IH]; simpl; [reflexivity | now rewrite IH]. Qed.

Lemma append_assoc (a b c : string) : (a ++ b) ++ c = a ++ (b ++ c).
Proof. induction a as [|x a IH]; simpl; [reflexivity | now rewrite IH]. Qed.

Lemma fold_append_chunk (chunks : list (option string)) (text : string) :
  fold_left append_chunk chunks text = text ++ joined chunks.
Proof.
  unfold joined. revert text.
  induction chunks as [|c chunks IH]; intros text; simpl.
  - now rewrite append_nil_r.
  - rewrite IH, (IH (append_chunk "" c)), <- append_assoc. f_equal.
    destruct c; simpl; [reflexivity | now rewrite append_nil_r].
Qed.

Lemma joined_app (a b : list (option string)) :
  joined (a ++ b)%list = joined a ++ joined b.
Proof. unfold joined at 1. now rewrite fold_left_app, fold_append_chunk. Qed.

Lemma write_all_fields (chunks : list (option string)) (req : ClientRequest) :
  interceptedReq (write_all chunks req) = interceptedReq req
  /\ body (write_all chunks req) = body req ++ joined chunks
  /\ handed_on (write_all chunks req) = (handed_on req ++ chunks)%list
  /\ ended (write_all chunks req) = ended req.
Proof.
  unfold write_all. revert req.
  induction chunks as [|c chunks IH]; intros req; simpl.
  - unfold joined. simpl. now rewrite append_nil_r, app_nil_r.
  - destruct (IH (req_write c req)) as (-> & -> & -> & ->).
    cbn [req_write interceptedReq body handed_on ended].
    rewrite <- app_assoc. repeat split.
    change (c :: chunks) with ([c] ++ chunks)%list.
    rewrite joined_app, <- append_assoc. f_equal.
    unfold joined. simpl. destruct c; simpl; trivial.
    now rewrite append_nil_r.
Qed.

Lemma fold_on_data (chunks : list string) (text : string) :
  fold_left (fun t chunk => on_data chunk t) chunks text
  = text ++ String.concat "" chunks.
Proof.
  revert text. induction chunks as [|c chunks IH]; intros text.
  - simpl. now rewrite append_nil_r.
  - cbn [fold_left]. rewrite IH. unfold on_data.
    destruct chunks as [|c' chunks].
    + simpl. now rewrite !append_nil_r.
    + change (String.concat "" (c :: c' :: chunks))
        with (c ++ "" ++ String.concat "" (c' :: chunks)).
      simpl ("" ++ _). apply append_assoc.
Qed.

Section Platform.
Variable URL_hostname : string -> completion string.
Variable JSON_parse : string -> completion value.

(** X12.  The two classifications of a destination agree: a call taken
    for a provider call is given one of the six provider names, never
    the bare host name nor [unknown]; a call not taken for one is named
    by its host name, or [unknown] when the URL does not parse. *)
Theorem classification_agrees (url : string) :
  (isProviderRequest URL_hostname url = true ->
   In (extractProvider URL_hostname url) provider_names)
  /\ (isProviderRequest URL_hostname url = false ->
      extractProvider URL_hostname url
      = match URL_hostname url with
        | Normal hostname => hostname
        | Throw _ => "unknown"
        end).
Proof using URL_hostname.
  clear JSON_parse.
  unfold isProviderRequest, extractProvider, providerDomains, provider_names.
  destruct (URL_hostname url) as [h|]; [|split; [discriminate | reflexivity]].
  cbn [existsb].
  destruct (includes "openrouter.ai" h), (includes "api.deepseek.com" h),
    (includes "api.openai.com" h),
    (includes "generativelanguage.googleapis.com" h),
    (includes "api.anthropic.com" h), (includes "httpbin.org" h);
    cbn [orb]; split; intros H; try discriminate H; try reflexivity;
    cbn [In]; tauto.
Qed.

(** X13.  However a request body is cut into chunks, the interceptor
    hands every chunk on in order, holds the whole text at the end, and
    leaves in the logger what one [req.end] with the whole text leaves. *)
Theorem request_body_however_chunked (env : Env)
  (chunks : list (option string)) (last : option string)
  (req : ClientRequest) (l : Logger) :
  let whole := joined (chunks ++ [last]) in
  let done := req_end JSON_parse env last (write_all chunks req) l in
  body (fst done) = body req ++ whole
  /\ handed_on (fst done) = (handed_on req ++ chunks ++ [last])%list
  /\ ended (fst done) = true
  /\ snd done = snd (req_end JSON_parse env (Some whole) req l).
Proof.
  cbv zeta.
  destruct (write_all_fields chunks req) as (I & B & H & _).
  assert (W : append_chunk (body (write_all chunks req)) last
              = body req ++ joined (chunks ++ [last])).
  { rewrite B, joined_app, <- append_assoc. unfold joined at 2. simpl.
    destruct last; simpl; trivial. now rewrite !append_nil_r. }
  unfold req_end. cbn [fst snd body handed_on ended].
  rewrite W, I, H, <- app_assoc. repeat split.
Qed.

Lemma createInterceptor_unarmed (isHttps : bool) (env : Env) (g : Global)
  (options : string + RequestOptions) (req : ClientRequest) :
  currentRequestId g = None \/ currentRequestId g = Some "" ->
  createInterceptor URL_hostname isHttps env g options = Intercepted req ->
  requestId (interceptedReq req) = None.
Proof.
  intros G. unfold createInterceptor, getCurrentRequestId.
  destruct (negb (isProviderRequest URL_hostname (parseUrl options isHttps)));
    [discriminate|].
  intros [= <-]. cbn. now destruct G as [-> | ->].
Qed.

(** X14.  With no id in the slot, or the empty one, an intercepted call
    leaves the logger as it was through its whole life: whatever is
    written to it and whatever comes back. *)
Theorem unarmed_call_leaves_no_trace (isHttps : bool) (env env' env'' : Env)
  (g : Global) (options : string + RequestOptions) (req : ClientRequest)
  (chunks : list (option string)) (last : option string)
  (res : IncomingMessage) (answer : list string) (l : Logger) :
  currentRequestId g = None \/ currentRequestId g = Some "" ->
  createInterceptor URL_hostname isHttps env g options = Intercepted req ->
  let done := req_end JSON_parse env' last (write_all chunks req) l in
  snd done = l
  /\ handleResponse JSON_parse env'' res (interceptedReq (fst done)) answer l
     = l.
Proof.
  intros G C. cbv zeta.
  pose proof (createInterceptor_unarmed _ _ _ _ _ G C) as N.
  destruct (write_all_fields chunks req) as (I & _).
  unfold handleResponse, on_end, req_end.
  cbn [fst snd interceptedReq requestId]. rewrite I, N. now split.
Qed.

Lemma step_not_reaching (s : System) (e : event) :
  reaches_interceptor URL_hostname e = false ->
  step URL_hostname JSON_parse s e = s.
Proof.
  destruct e as [| cause env isHttps options chunk | |]; simpl;
    try discriminate.
  intros H. unfold createInterceptor. now rewrite H.
Qed.

(** X15.  Outbound calls to hosts that are no providers make no
    difference: a run ends in the same state with them as without them,
    whatever id is armed when they are made. *)
Theorem other_hosts_make_no_difference (s : System) (trace : list event) :
  run URL_hostname JSON_parse s trace
  = run URL_hostname JSON_parse s
      (filter (reaches_interceptor URL_hostname) trace).
Proof.
  unfold run. revert s. induction trace as [|e trace IH]; intros s; simpl;
    trivial.
  destruct (reaches_interceptor URL_hostname e) eqn:R; simpl.
  - apply IH.
  - rewrite (step_not_reaching s e R). apply IH.
Qed.

(** X16.  An intercepted call made while a truthy id is in the slot, on
    a record stored under that id, with logging enabled and a body that
    is empty or parses: at [req.end] the record gets its
    [transformedRequest] stage, with the destination, the method, the
    sanitized headers of the call, the sanitized parsed body and the
    provider name. *)
Theorem armed_call_is_recorded (isHttps : bool) (env env' : Env) (g : Global)
  (options : string + RequestOptions) (k : string)
  (chunks : list (option string)) (last : option string) (l : Logger)
  (e : RequestLogEntry) (v : value) :
  currentRequestId g = Some k ->
  truthy (VStr k) = true ->
  isProviderRequest URL_hostname (parseUrl options isHttps) = true ->
  logging_disabled env' = false ->
  getLogById k l = Some e ->
  parse_or_null JSON_parse (joined (chunks ++ [last])) = Normal v ->
  exists req : ClientRequest,
    createInterceptor URL_hostname isHttps env g options = Intercepted req
    /\ getLogById k
         (snd (req_end JSON_parse env' last (write_all chunks req) l))
       = Some
           (set_transformedRequest
              {| tr_url := parseUrl options isHttps;
                 tr_method := options_method options;
                 tr_headers := sanitizeHeaders (options_headers options);
                 tr_body := sanitizeBody v;
                 tr_provider :=
                   or_else
                     (Some (extractProvider URL_hostname
                              (parseUrl options isHttps)))
                     "unknown" |}
              e).
Proof.
  intros G T P En St Pa.
  unfold createInterceptor, getCurrentRequestId. rewrite P, G, T.
  cbn [negb]. eexists. split; [reflexivity|].
  match goal with
  | |- context [write_all chunks ?r] =>
      destruct (request_body_however_chunked env' chunks last r l)
        as (_ & _ & _ & ->)
  end.
  unfold req_end. cbn [snd fst body interceptedReq requestId append_chunk].
  change ("" ++ joined (chunks ++ [last])) with (joined (chunks ++ [last])).
  rewrite Pa. cbn [bind].
  unfold logTransformedRequest, getLogById in *. rewrite En, St.
  cbn [update logs with_logs ir_url ir_method ir_headers provider].
  now rewrite Map_get_set_same.
Qed.

(** X17.  The response of an intercepted call that carries an id, on a
    record stored under that id, with logging enabled and a body that is
    empty or parses: however it is cut into chunks, at its end the record
    gets its [providerResponse] stage, with the status, the sanitized
    headers, the sanitized parsed body, and as duration the time since
    the call was issued. *)
Theorem provider_response_is_recorded (env : Env) (res : IncomingMessage)
  (i : InterceptedRequest) (k : string) (answer : list string) (l : Logger)
  (e : RequestLogEntry) (v : value) :
  requestId i = Some k ->
  logging_disabled env = false ->
  getLogById k l = Some e ->
  parse_or_null JSON_parse (String.concat "" answer) = Normal v ->
  getLogById k (handleResponse JSON_parse env res i answer l)
  = Some
      (set_providerResponse
         {| status := statusCode res;
            sr_headers := sanitizeHeaders (res_headers res);
            sr_body := sanitizeBody v;
            duration := Date_now env - startTime i |}
         e).
Proof.
  intros R En St Pa. unfold handleResponse, on_end.
  rewrite R, fold_on_data. cbn ["++"%string]. rewrite Pa. cbn [bind].
  unfold logProviderResponse, getLogById in *. rewrite En, St.
  cbn [update logs with_logs]. now rewrite Map_get_set_same.
Qed.

(** X18.  The [onSend] hook of a tracked request whose record is stored
    sets the response stage of the record, with the sanitized headers and
    the sanitized body: the payload parsed when it is a text that parses,
    the payload as it is otherwise.  The record is handed to
    [writeToFile] whether or not logging is enabled. *)
Theorem onSend_records_response (env : Env) (req : Request) (reply : Reply)
  (payload : value) (l : Logger) (k : string) (t : Z)
  (e : RequestLogEntry) :
  tracked req = true ->
  truthy_id req = Some k ->
  rq_startTime req = Some t -> t <> 0%Z ->
  getLogById k l = Some e ->
  let e' :=
    set_response
      {| status := rp_statusCode reply;
         sr_headers := sanitizeHeaders (rp_headers reply);
         sr_body := sanitizeBody (responseBody_of JSON_parse payload);
         duration := Date_now env - t |}
      e in
  getLogById k (onSend JSON_parse env req reply payload l) = Some e'
  /\ file (onSend JSON_parse env req reply payload l)
     = (file l ++ (if writes env e' then [e'] else []))%list.
Proof.
  intros T I S Ht G. cbv zeta. unfold onSend, getLogById in *.
  rewrite T, I, S.
  destruct (Z.eqb_spec t 0) as [->|_]; [congruence|].
  unfold logResponse. rewrite G.
  fold (responseBody_of JSON_parse payload).
  match goal with
  | |- context [writeToFile env ?x ?y] =>
      destruct (logs_writeToFile env x y) as [-> _];
      rewrite (file_writeToFile env x y)
  end.
  cbn [logs file update with_logs]. split; [apply Map_get_set_same|].
  reflexivity.
Qed.
End Platform.

(** X19.  [install] twice is [install] once, and [uninstall] after
    [install] puts back the functions the instance took when it was
    made, whatever the modules held in between. *)
Theorem install_then_uninstall (this : Instance) (m : Modules) :
  install (fst (install this m)) (snd (install this m)) = install this m
  /\ (installed this = false ->
      snd (uninstall (fst (install this m)) (snd (install this m)))
      = {| http_request := originalHttpRequest this;
           https_request := originalHttpsRequest this |}
      /\ fst (uninstall (fst (install this m)) (snd (install this m)))
         = this)
  /\ (installed this = false -> uninstall this m = (this, m)).
Proof.
  unfold install, uninstall. destruct this as [oh ohs [|]]; cbn.
  - repeat split; discriminate.
  - repeat split.
Qed.

Lemma classification_agrees_witness :
  In (extractProvider hostname_of "https://api.anthropic.com/v1/messages")
     provider_names
  /\ extractProvider hostname_of "https://example.com/" = "example.com".
Proof.
  split.
  - exact (proj1 (classification_agrees hostname_of
                    "https://api.anthropic.com/v1/messages") eq_refl).
  - exact (proj2 (classification_agrees hostname_of "https://example.com/")
             eq_refl).
Defined.

Lemma unarmed_call_leaves_no_trace_witness :
  snd (req_end parse_json env1 (Some "{}")
         (write_all [Some "[1,"; Some "2]"]
            {| interceptedReq :=
                 {| requestId := None; startTime := 1000;
                    ir_url := "https://api.anthropic.com/v1/messages";
                    ir_method := "POST";
                    ir_headers := VObj [("x-api-key", VStr "sk-ant-1")];
                    ir_body := None; provider := "anthropic" |};
               body := ""; handed_on := []; ended := false |})
         (logger two_requests))
  = logger two_requests.
Proof.
  exact (proj1 (unarmed_call_leaves_no_trace hostname_of parse_json true
                  env0 env1 env2 {| currentRequestId := None |} anthropic
                  {| interceptedReq :=
                       {| requestId := None; startTime := 1000;
                          ir_url := "https://api.anthropic.com/v1/messages";
                          ir_method := "POST";
                          ir_headers := VObj [("x-api-key", VStr "sk-ant-1")];
                          ir_body := None; provider := "anthropic" |};
                     body := ""; handed_on := []; ended := false |}
                  [Some "[1,"; Some "2]"] (Some "{}")
                  {| statusCode := 200; res_headers := VObj [] |} ["ok"]
                  (logger two_requests) (or_introl eq_refl) eq_refl)).
Defined.

Lemma armed_call_is_recorded_witness :
  exists req : ClientRequest,
    createInterceptor hostname_of true env0
      {| currentRequestId := Some "req_a" |} anthropic
    = Intercepted req
    /\ getLogById "req_a"
         (snd (req_end parse_json env1 (Some "2]")
                 (write_all [Some "[1,"] req) (logger two_requests)))
       = Some
           (set_transformedRequest
              {| tr_url := "https://api.anthropic.com/v1/messages";
                 tr_method := "POST";
                 tr_headers := VObj [("x-api-key", REDACTED)];
                 tr_body := VArr [VNum 1; VNum 2];
                 tr_provider := "anthropic" |}
              (new_entry env0 "req_a" post_messages)).
Proof.
  exact (armed_call_is_recorded hostname_of parse_json true env0 env1
           {| currentRequestId := Some "req_a" |} anthropic "req_a"
           [Some "[1,"] (Some "2]") (logger two_requests)
           (new_entry env0 "req_a" post_messages) (VArr [VNum 1; VNum 2])
           eq_refl eq_refl eq_refl eq_refl eq_refl eq_refl).
Defined.

Lemma provider_response_is_recorded_witness :
  getLogById "req_a"
    (handleResponse parse_json env2
       {| statusCode := 200; res_headers := VObj [] |}
       {| requestId := Some "req_a"; startTime := 1000;
          ir_url := "https://api.anthropic.com/v1/messages";
          ir_method := "POST"; ir_headers := VObj [];
          ir_body := None; provider := "anthropic" |}
       ["[tr"; "ue]"] (logger two_requests))
  = Some
      (set_providerResponse
         {| status := 200; sr_headers := VObj [];
            sr_body := VArr [VBool true]; duration := 2000 |}
         (new_entry env0 "req_a" post_messages)).
Proof.
  exact (provider_response_is_recorded parse_json env2
           {| statusCode := 200; res_headers := VObj [] |}
           {| requestId := Some "req_a"; startTime := 1000;
              ir_url := "https://api.anthropic.com/v1/messages";
              ir_method := "POST"; ir_headers := VObj [];
              ir_body := None; provider := "anthropic" |}
           "req_a" ["[tr"; "ue]"] (logger two_requests)
           (new_entry env0 "req_a" post_messages) (VArr [VBool true])
           eq_refl eq_refl eq_refl eq_refl).
Defined.

(** A payload that is no JSON is kept as the text it is. *)
Lemma onSend_records_response_witness :
  getLogById "req_a"
    (onSend parse_json env2
       {| rq_url := "/v1/messages"; rq_requestId := Some "req_a";
          rq_startTime := Some 1000%Z |}
       ok_reply (VStr "event: done") (logger two_requests))
  = Some
      (set_response
         {| status := 200; sr_headers := VObj [];
            sr_body := VStr "event: done"; duration := 2000 |}
         (new_entry env0 "req_a" post_messages)).
Proof.
  exact (proj1 (onSend_records_response parse_json env2
                  {| rq_url := "/v1/messages"; rq_requestId := Some "req_a";
                     rq_startTime := Some 1000%Z |}
                  ok_reply (VStr "event: done") (logger two_requests)
                  "req_a" 1000 (new_entry env0 "req_a" post_messages)
                  eq_refl eq_refl eq_refl ltac:(discriminate) eq_refl)).
Defined.

Lemma install_then_uninstall_witness :
  snd (uninstall
         (fst (install (constructor node_modules)
                 {| http_request := Foreign "mock";
                    https_request := Native true |}))
         (snd (install (constructor node_modules)
                 {| http_request := Foreign "mock";
                    https_request := Native true |})))
  = node_modules.
Proof.
  exact (proj1 (proj1 (proj2 (install_then_uninstall
                                (constructor node_modules)
                                {| http_request := Foreign "mock";
                                   https_request := Native true |}))
                  eq_refl)).
Defined.

(** A request that has been served leaves the slot empty. *)
Lemma unit_of_work_disarms (URL_hostname : string -> completion string)
  (JSON_parse : string -> completion value) (s : System) (env : Env)
  (k : string) (options : string + RequestOptions) (chunk : option string)
  (reply : Reply) (payload : value) :
  truthy (VStr k) = true ->
  global (run URL_hostname JSON_parse s
            (unit_of_work env k options chunk reply payload))
  = {| currentRequestId := None |}.
Proof.
  intros T. unfold unit_of_work.
  set (req := {| rq_url := "/v1/messages"; rq_requestId := Some k;
                 rq_startTime := None |}).
  set (req' := fst (preHandler env req {| currentRequestId := None |})).
  assert (Tr : tracked req' = true) by reflexivity.
  assert (I : truthy_id req' = Some k).
  { change (truthy_id req') with (if truthy (VStr k) then Some k else None).
    now rewrite T. }
  unfold run. cbn [fold_left].
  match goal with
  | |- global (step _ _ ?x (OnSendResumed req')) = _ =>
      change (onSend_resumed req' (global x) = {| currentRequestId := None |})
  end.
  unfold onSend_resumed. now rewrite Tr, I.
Qed.

(** X20.  Inbound requests served one after the other, each with a
    truthy id, are never mixed up: every intercepted call carries the id
    of the request that caused it, and the slot is empty again after the
    last one. *)
Theorem requests_in_turn_are_isolated
  (URL_hostname : string -> completion string)
  (JSON_parse : string -> completion value) (s : System) (ws : list work) :
  Forall (fun w => truthy (VStr (w_id w)) = true) ws ->
  attributed s = [] ->
  isolated (run URL_hostname JSON_parse s (serial ws))
  /\ (ws <> [] ->
      global (run URL_hostname JSON_parse s (serial ws))
      = {| currentRequestId := None |}).
Proof.
  intros H A. split.
  - apply Correlation.serial_isolated; trivial.
    intros c o. rewrite A. intros [].
  - clear A. intros N.
    destruct (exists_last N) as (front & w & ->).
    apply Forall_app in H. destruct H as [_ H]. inversion H as [|? ? Hw _].
    unfold serial. rewrite flat_map_app, Correlation.run_app.
    cbn [flat_map]. rewrite app_nil_r.
    now apply unit_of_work_disarms.
Qed.

Lemma requests_in_turn_are_isolated_witness :
  isolated
    (run hostname_of parse_json two_requests
       (serial
          [{| w_env := env1; w_id := "req_a"; w_options := anthropic;
              w_chunk := Some "{}"; w_reply := ok_reply;
              w_payload := VStr "ok" |};
           {| w_env := env2; w_id := "req_b"; w_options := anthropic;
              w_chunk := Some "[]"; w_reply := ok_reply;
              w_payload := VStr "ok" |}])).
Proof.
  apply (requests_in_turn_are_isolated hostname_of parse_json two_requests
           [{| w_env := env1; w_id := "req_a"; w_options := anthropic;
               w_chunk := Some "{}"; w_reply := ok_reply;
               w_payload := VStr "ok" |};
            {| w_env := env2; w_id := "req_b"; w_options := anthropic;
               w_chunk := Some "[]"; w_reply := ok_reply;
               w_payload := VStr "ok" |}]).
  - repeat constructor.
  - reflexivity.
Defined.

End Capture.

(* ================================================================== *)
(** * The log endpoints                                                *)
(* ================================================================== *)

Module Endpoints.
Import JS RequestLogger Notions Server Store Queries.

(** X21.  The log endpoints refuse with 401, whatever the store holds and
    whatever is asked, exactly when the access level is missing, falsy or
    ["restricted"]; any other level is let in: the list endpoint returns
    records and the record endpoint returns the stored record, or 404
    when the id is not stored. *)
Theorem log_endpoints_access (level : value) (query_limit : option string)
  (k : string) (l : Logger) :
  (truthy level = false \/ level = VStr "restricted" ->
   get_api_logs level query_limit l = Send 401 "API key required to access logs"
   /\ get_api_logs_id level k l = Send 401 "API key required to access logs")
  /\ (truthy level = true -> level <> VStr "restricted" ->
      get_api_logs level query_limit l
      = Return (getRecentLogs (limit_of query_limit) l)
      /\ get_api_logs_id level k l
         = match getLogById k l with
           | Some log => Return log
           | None => Send 404 "Log not found"
           end).
Proof.
  unfold get_api_logs, get_api_logs_id, restricted, accessLevel. split.
  - intros [T | ->]; [rewrite T | ]; cbn; auto.
  - intros T N. rewrite T.
    destruct level as [| |b|n|n|s|items|props]; auto.
    destruct (String.eqb_spec s "restricted") as [->|_]; [congruence | auto].
Qed.

Lemma log_endpoints_access_witness :
  get_api_logs VUndefined (Some "5") requestLogger
  = Send 401 "API key required to access logs"
  /\ get_api_logs_id (VStr "full") "req_9" requestLogger
     = Send 404 "Log not found".
Proof.
  split.
  - exact (proj1 (proj1 (log_endpoints_access VUndefined (Some "5") "req_9"
                           requestLogger) (or_introl eq_refl))).
  - exact (proj2 (proj2 (log_endpoints_access (VStr "full") None "req_9"
                           requestLogger) eq_refl ltac:(discriminate))).
Defined.

(** X22.  Which records the list endpoint returns to a caller that is
    let in: the first [count] of the stored records put in order newest
    first (records with the same timestamp in insertion order), where
    [count] is the limit asked for when it reads as a positive number,
    100 when no limit is given or it reads as no number or as zero, and
    the size of the store less [|n|] when it reads as a negative number
    [n]: all but the [|n|] oldest. *)
Theorem log_endpoint_limit (level : value) (query_limit : option string)
  (l : Logger) :
  restricted level = false ->
  let records := map snd (logs l) in
  let count :=
    match parseInt query_limit with
    | Some n =>
        if (0 <? n)%Z then Z.to_nat n
        else if (n <? 0)%Z then List.length records - Z.to_nat (- n)
        else 100
    | None => 100
    end in
  exists ordered : list RequestLogEntry,
    Permutation ordered records
    /\ StronglySorted (before newest_first records) ordered
    /\ get_api_logs level query_limit l = Return (firstn count ordered)
    /\ List.length (firstn count ordered)
       = Nat.min count (List.length records).
Proof.
  intros R. cbv zeta. unfold get_api_logs. rewrite R.
  exists (sort newest_first (map snd (logs l))).
  split; [apply sort_perm|].
  split; [apply sort_before;
          [apply newest_first_anti | apply newest_first_trans]|].
  split.
  - f_equal. unfold getRecentLogs, slice0, limit_of.
    change (fun a b : RequestLogEntry =>
              localeCompare (timestamp b) (timestamp a)) with newest_first.
    rewrite length_sort.
    destruct (parseInt query_limit) as [n|]; [|reflexivity].
    destruct (Z.eqb_spec n 0) as [->|N]; [reflexivity|].
    destruct (Z.ltb_spec 0 n), (Z.ltb_spec n 0); try lia; reflexivity.
  - now rewrite length_firstn, length_sort.
Qed.

Lemma log_endpoint_limit_witness :
  exists ordered : list RequestLogEntry,
    Permutation ordered
      (map snd (logs (after [Create env0 "req_1" post_messages;
                             Create env1 "req_2" post_messages])))
    /\ get_api_logs (VStr "full") (Some "-1")
         (after [Create env0 "req_1" post_messages;
                 Create env1 "req_2" post_messages])
       = Return (firstn 1 ordered).
Proof.
  destruct (log_endpoint_limit (VStr "full") (Some "-1")
              (after [Create env0 "req_1" post_messages;
                      Create env1 "req_2" post_messages])
              eq_refl)
    as (ordered & P & _ & E & _).
  exists ordered. split; [exact P | exact E].
Defined.

(** With a limit of [-1] the older of two records is left out. *)
Example negative_limit_drops_oldest :
  match
    get_api_logs (VStr "full") (Some "-1")
      (after [Create env0 "req_1" post_messages;
              Create env1 "req_2" post_messages])
  with
  | Return records => map id records
  | Send _ _ => []
  end
  = ["req_2"].
Proof. reflexivity. Qed.

End Endpoints.
